(** * questioner-maker: CSV export, stream preview, JSON-correction loop and
      request queue, embedded from the TypeScript sources.

    JavaScript strings are sequences of UTF-16 code units; they are modelled
    as [list N], one [N] per code unit, so that [length] is the JS [.length]
    and indexing is the JS [s[i]]. *)

From Stdlib Require Import String Ascii NArith List Lia Bool DecimalString.
From stdpp Require Import base list gmap.

Local Open Scope N_scope.

Abbreviation jsstring := (list N).

(** ** String literals

    [js "..."] decodes the UTF-8 bytes of a Rocq literal into UTF-16 code
    units (characters of the Basic Multilingual Plane, which is all the
    sources use in their literals). *)

Fixpoint utf16_of_utf8 (bs : list N) : jsstring :=
  match bs with
  | [] => []
  | b :: r =>
      if b <? 128 then b :: utf16_of_utf8 r
      else if b <? 224 then
        match r with
        | c :: r' => ((b mod 32) * 64 + c mod 64) :: utf16_of_utf8 r'
        | [] => []
        end
      else
        match r with
        | c :: d :: r' =>
            ((b mod 16) * 4096 + (c mod 64) * 64 + d mod 64) :: utf16_of_utf8 r'
        | _ => []
        end
  end.

Definition js (s : string) : jsstring :=
  utf16_of_utf8 (map N_of_ascii (list_ascii_of_string s)).

(** [jsq] is [js] with every apostrophe of the literal standing for a
    double quote, to write texts that contain double quotes. *)
Definition jsq (s : string) : jsstring :=
  map (fun c => if c =? 39 then 34 else c) (js s).

(** The characters the sources compare against, by code unit. *)
Definition DQUOTE : N := 34.
Definition APOSTROPHE : N := 39.
Definition COMMA : N := 44.
Definition NEWLINE : N := 10.
Definition BACKSLASH : N := 92.
Definition COLON : N := 58.
Definition SPACE : N := 32.
Definition TAB : N := 9.

(** ** The JavaScript built-ins the sources call *)

Module JS.

(** White space and line terminators of ECMAScript, the characters
    [String.prototype.trim] strips. *)
Definition isWhiteSpace (c : N) : bool :=
  (c =? 9) || (c =? 10) || (c =? 11) || (c =? 12) || (c =? 13) || (c =? 32)
  || (c =? 160) || (c =? 5760) || ((8192 <=? c) && (c <=? 8202))
  || (c =? 8232) || (c =? 8233) || (c =? 8239) || (c =? 8287)
  || (c =? 12288) || (c =? 65279).

Fixpoint trimStart (s : jsstring) : jsstring :=
  match s with
  | c :: r => if isWhiteSpace c then trimStart r else s
  | [] => []
  end.

Definition trimEnd (s : jsstring) : jsstring := rev (trimStart (rev s)).

Definition trim (s : jsstring) : jsstring := trimEnd (trimStart s).

(** [s.includes(c)] for a one-character needle. *)
Definition includes (s : jsstring) (c : N) : bool := existsb (N.eqb c) s.

(** [s.startsWith(c)] and [s.endsWith(c)] for a one-character needle. *)
Definition startsWith (s : jsstring) (c : N) : bool :=
  match s with
  | x :: _ => x =? c
  | [] => false
  end.

Definition endsWith (s : jsstring) (c : N) : bool := startsWith (rev s) c.

(** [s.substring(a, b)]: both indices are clamped to the length and
    swapped when [a > b]. *)
Definition substring (a b : nat) (s : jsstring) : jsstring :=
  let a' := Nat.min a (length s) in
  let b' := Nat.min b (length s) in
  let lo := Nat.min a' b' in
  let hi := Nat.max a' b' in
  firstn (hi - lo) (skipn lo s).

(** [parts.join(sep)]. *)
Fixpoint join (sep : jsstring) (parts : list jsstring) : jsstring :=
  match parts with
  | [] => []
  | [p] => p
  | p :: rest => p ++ sep ++ join sep rest
  end.

(** [s.replace] of every double quote by two double quotes. *)
Definition doubleQuotes (s : jsstring) : jsstring :=
  flat_map (fun c => if c =? DQUOTE then [DQUOTE; DQUOTE] else [c]) s.

(** [s.replace] of every pair of double quotes by one: the matches of
    the global pattern are found left to right and do not overlap. *)
Fixpoint undoubleQuotes (s : jsstring) : jsstring :=
  match s with
  | c :: r =>
      match r with
      | d :: r' =>
          if (c =? DQUOTE) && (d =? DQUOTE) then DQUOTE :: undoubleQuotes r'
          else c :: undoubleQuotes r
      | [] => [c]
      end
  | [] => []
  end.

End JS.

(** ** types.ts *)

Record QuestionData := mkQuestionData {
  id : jsstring;
  Pregunta : jsstring;
  Opción_correcta_1 : jsstring;
  Opción_Correcta_2 : option jsstring;
  Opción_Correcta_3 : option jsstring;
  Opción_Incorrecta_1 : option jsstring;
  Opción_Incorrecta_2 : option jsstring;
  Opción_Incorrecta_3 : option jsstring;
  Explicación : option jsstring
}.

Definition CSV_HEADERS : list jsstring :=
  [ js "Pregunta";
    js "Opción correcta 1";
    js "Opción Correcta 2";
    js "Opción Correcta 3";
    js "Opción Incorrecta 1";
    js "Opción Incorrecta 2";
    js "Opción Incorrecta 3";
    js "Explicación" ].

(** ** utils/csvHelper.ts *)

(** The [for] loop of [parseCsvLineRobust]: [line] is the part of the line
    from index [i] on; the [i++] that skips the second quote of an escaped
    pair is the recursive call on [rest']. *)
Fixpoint parseCsvLine_loop (line : jsstring) (fields : list jsstring)
    (currentField : jsstring) (inQuotes : bool) : list jsstring :=
  match line with
  | [] => fields ++ [currentField]
  | char :: rest =>
      if char =? DQUOTE then
        match rest with
        | next :: rest' =>
            if inQuotes && (next =? DQUOTE)
            then parseCsvLine_loop rest' fields (currentField ++ [DQUOTE]) inQuotes
            else parseCsvLine_loop rest fields currentField (negb inQuotes)
        | [] => parseCsvLine_loop rest fields currentField (negb inQuotes)
        end
      else if (char =? COMMA) && negb inQuotes then
        parseCsvLine_loop rest (fields ++ [currentField]) [] inQuotes
      else parseCsvLine_loop rest fields (currentField ++ [char]) inQuotes
  end.

(** The callback of the final [fields.map]. *)
Definition unquoteOrTrim (field : jsstring) : jsstring :=
  if JS.startsWith field DQUOTE && JS.endsWith field DQUOTE
  then JS.undoubleQuotes (JS.substring 1 (length field - 1) field)
  else JS.trim field.

Definition parseCsvLineRobust (line : jsstring) : list jsstring :=
  map unquoteOrTrim (parseCsvLine_loop line [] [] false).

(** [fieldValue] is [None] for [undefined] and [null]. *)
Definition escapeCsvField (fieldValue : option jsstring) : jsstring :=
  match fieldValue with
  | None => []
  | Some [] => []
  | Some stringField =>
      if JS.includes stringField COMMA || JS.includes stringField DQUOTE
         || JS.includes stringField NEWLINE
      then [DQUOTE] ++ JS.doubleQuotes stringField ++ [DQUOTE]
      else stringField
  end.

(** The eight values a CSV row is built from, in column order. *)
Definition rowFields (q : QuestionData) : list (option jsstring) :=
  [ Some (Pregunta q);
    Some (Opción_correcta_1 q);
    Opción_Correcta_2 q;
    Opción_Correcta_3 q;
    Opción_Incorrecta_1 q;
    Opción_Incorrecta_2 q;
    Opción_Incorrecta_3 q;
    Explicación q ].

Definition headerRow : jsstring := JS.join [COMMA] CSV_HEADERS.

Definition dataRow (q : QuestionData) : jsstring :=
  JS.join [COMMA] (map escapeCsvField (rowFields q)).

Definition dataRows (questions : list QuestionData) : list jsstring :=
  map dataRow questions.

Definition generateCsvString (questions : list QuestionData) : jsstring :=
  JS.join [NEWLINE] (headerRow :: dataRows questions).


(** *** The CSV text as the specification words it

    A second, independent description of the export, used only to compare
    [generateCsvString] with: a field is quoted, with its double quotes
    doubled, exactly when it holds a comma, a double quote or a newline;
    an absent value is the empty field. *)

Module CsvSpec.

Definition needsQuoting (f : jsstring) : Prop :=
  COMMA ∈ f ∨ DQUOTE ∈ f ∨ NEWLINE ∈ f.

Definition field (v : option jsstring) : jsstring :=
  match v with
  | None => []
  | Some f =>
      if decide (needsQuoting f)
      then DQUOTE :: flat_map (fun c => if decide (c = DQUOTE)
                                         then [DQUOTE; DQUOTE] else [c]) f
                  ++ [DQUOTE]
      else f
  end.

Definition row (q : QuestionData) : jsstring :=
  field (Some (Pregunta q)) ++ [COMMA] ++
  field (Some (Opción_correcta_1 q)) ++ [COMMA] ++
  field (Opción_Correcta_2 q) ++ [COMMA] ++
  field (Opción_Correcta_3 q) ++ [COMMA] ++
  field (Opción_Incorrecta_1 q) ++ [COMMA] ++
  field (Opción_Incorrecta_2 q) ++ [COMMA] ++
  field (Opción_Incorrecta_3 q) ++ [COMMA] ++
  field (Explicación q).

Definition header : jsstring :=
  js "Pregunta,Opción correcta 1,Opción Correcta 2,Opción Correcta 3,Opción Incorrecta 1,Opción Incorrecta 2,Opción Incorrecta 3,Explicación".

(** The header line, then one line feed and one row per question. *)
Definition csv (questions : list QuestionData) : jsstring :=
  header ++ flat_map (fun q => NEWLINE :: row q) questions.

(** The value a reader of the CSV expects back for a column. *)
Definition value (v : option jsstring) : jsstring :=
  match v with
  | None => []
  | Some f => f
  end.

(** The fields for which the claim promises a round trip. *)
Definition plainField (v : option jsstring) : Prop :=
  match v with
  | None => True
  | Some f =>
      (NEWLINE ∉ f) ∧ JS.trim f = f
      ∧ ¬ (JS.startsWith f DQUOTE = true ∧ JS.endsWith f DQUOTE = true)
  end.

End CsvSpec.

(** ** JSON values

    What [JSON.parse] returns. A number keeps its lexeme: its value is a
    floating-point number, which no claim depends on. An object keeps its
    members in source order; reading a property takes the last member of
    that name, as [JSON.parse] does for repeated keys. *)

#[local] Set Warnings "-register-all".

Inductive JSON : Type :=
| JNull
| JBool (b : bool)
| JNumber (lexeme : jsstring)
| JString (s : jsstring)
| JArray (items : list JSON)
| JObject (members : list (jsstring * JSON)).

(** [item[key]]: [None] is [undefined]. Arrays, like the other values that
    are not plain objects, have none of the properties the sources read. *)
Fixpoint lookupMember (key : jsstring) (members : list (jsstring * JSON))
    : option JSON :=
  match members with
  | [] => None
  | (k, v) :: rest =>
      match lookupMember key rest with
      | Some later => Some later
      | None => if decide (k = key) then Some v else None
      end
  end.

Definition getProperty (item : JSON) (key : jsstring) : option JSON :=
  match item with
  | JObject members => lookupMember key members
  | _ => None
  end.

(** [typeof v], for the values [JSON.parse] can return. *)
Definition typeof (v : JSON) : jsstring :=
  match v with
  | JNull | JArray _ | JObject _ => js "object"
  | JBool _ => js "boolean"
  | JNumber _ => js "number"
  | JString _ => js "string"
  end.

(** Decimal text of a natural number, as a template literal prints an
    index or a count. *)
Definition natToString (n : nat) : jsstring :=
  js (NilEmpty.string_of_uint (Nat.to_uint n)).

(** *** A model of [JSON.parse]

    The engine's parser, following the JSON grammar (ECMA-404). The
    properties of the retry loop are proved for an arbitrary parser; this
    one is used to run the functions on concrete texts. *)

Module JSONModel.

Definition isJsonSpace (c : N) : bool :=
  (c =? 32) || (c =? 9) || (c =? 10) || (c =? 13).

Fixpoint skipSpace (s : jsstring) : jsstring :=
  match s with
  | c :: r => if isJsonSpace c then skipSpace r else s
  | [] => []
  end.

Definition isDigit (c : N) : bool := (48 <=? c) && (c <=? 57).

Definition hexValue (c : N) : option N :=
  if isDigit c then Some (c - 48)
  else if (97 <=? c) && (c <=? 102) then Some (c - 87)
  else if (65 <=? c) && (c <=? 70) then Some (c - 55)
  else None.

Fixpoint takeDigits (s : jsstring) : jsstring * jsstring :=
  match s with
  | c :: r =>
      if isDigit c then let '(ds, rest) := takeDigits r in (c :: ds, rest)
      else ([], s)
  | [] => ([], [])
  end.

(** The characters of a string literal after its opening quote, decoded,
    and the text after the closing quote. *)
Fixpoint stringBody (s : jsstring) : option (jsstring * jsstring) :=
  match s with
  | [] => None
  | c :: r =>
      if c =? DQUOTE then Some ([], r)
      else if c <? 32 then None
      else if c =? BACKSLASH then
        match r with
        | e :: r1 =>
            let simple (d : N) :=
              match stringBody r1 with
              | Some (body, rest) => Some (d :: body, rest)
              | None => None
              end in
            if e =? DQUOTE then simple DQUOTE
            else if e =? BACKSLASH then simple BACKSLASH
            else if e =? 47 then simple 47
            else if e =? 98 then simple 8
            else if e =? 102 then simple 12
            else if e =? 110 then simple 10
            else if e =? 114 then simple 13
            else if e =? 116 then simple 9
            else if e =? 117 then
              match r1 with
              | h1 :: h2 :: h3 :: h4 :: r2 =>
                  match hexValue h1, hexValue h2, hexValue h3, hexValue h4 with
                  | Some a, Some b, Some c', Some d =>
                      match stringBody r2 with
                      | Some (body, rest) =>
                          Some ((a * 4096 + b * 256 + c' * 16 + d) :: body, rest)
                      | None => None
                      end
                  | _, _, _, _ => None
                  end
              | _ => None
              end
            else None
        | [] => None
        end
      else
        match stringBody r with
        | Some (body, rest) => Some (c :: body, rest)
        | None => None
        end
  end.

(** A number lexeme: sign, integer part without leading zeros, optional
    fraction, optional exponent. *)
Definition number (s : jsstring) : option (jsstring * jsstring) :=
  let '(sign, s1) :=
    match s with
    | c :: r => if c =? 45 then ([c], r) else ([], s)
    | [] => ([], s)
    end in
  let '(int, s2) := takeDigits s1 in
  match int with
  | [] => None
  | d :: more =>
      if (d =? 48) && negb (match more with [] => true | _ => false end)
      then None
      else
        let fraction :=
          match s2 with
          | c :: r =>
              if c =? 46 then
                match takeDigits r with
                | ([], _) => None
                | (ds, rest) => Some (c :: ds, rest)
                end
              else Some ([], s2)
          | [] => Some ([], s2)
          end in
        match fraction with
        | None => None
        | Some (frac, s3) =>
            let exponent :=
              match s3 with
              | c :: r =>
                  if (c =? 101) || (c =? 69) then
                    let '(esign, r1) :=
                      match r with
                      | x :: r' =>
                          if (x =? 43) || (x =? 45) then ([x], r') else ([], r)
                      | [] => ([], r)
                      end in
                    match takeDigits r1 with
                    | ([], _) => None
                    | (ds, rest) => Some (c :: esign ++ ds, rest)
                    end
                  else Some ([], s3)
              | [] => Some ([], s3)
              end in
            match exponent with
            | None => None
            | Some (ex, s4) => Some (sign ++ int ++ frac ++ ex, s4)
            end
        end
  end.

Fixpoint dropPrefix (p s : jsstring) : option jsstring :=
  match p, s with
  | [], _ => Some s
  | x :: p', y :: s' => if x =? y then dropPrefix p' s' else None
  | _ :: _, [] => None
  end.

(** [value], [elements] (after an opening bracket or a comma) and
    [members] (likewise in an object); [fuel] bounds the nesting and the
    number of elements, and the text length always suffices. *)
Fixpoint value (fuel : nat) (s : jsstring) : option (JSON * jsstring) :=
  match fuel with
  | O => None
  | S fuel' =>
      match skipSpace s with
      | [] => None
      | c :: r =>
          if c =? DQUOTE then
            match stringBody r with
            | Some (str, rest) => Some (JString str, rest)
            | None => None
            end
          else if c =? 91 then
            match skipSpace r with
            | c' :: r' =>
                if c' =? 93 then Some (JArray [], r')
                else
                  match elements fuel' r with
                  | Some (items, rest) => Some (JArray items, rest)
                  | None => None
                  end
            | [] => None
            end
          else if c =? 123 then
            match skipSpace r with
            | c' :: r' =>
                if c' =? 125 then Some (JObject [], r')
                else
                  match members fuel' r with
                  | Some (ms, rest) => Some (JObject ms, rest)
                  | None => None
                  end
            | [] => None
            end
          else if c =? 116 then
            match dropPrefix (js "true") (c :: r) with
            | Some rest => Some (JBool true, rest)
            | None => None
            end
          else if c =? 102 then
            match dropPrefix (js "false") (c :: r) with
            | Some rest => Some (JBool false, rest)
            | None => None
            end
          else if c =? 110 then
            match dropPrefix (js "null") (c :: r) with
            | Some rest => Some (JNull, rest)
            | None => None
            end
          else
            match number (c :: r) with
            | Some (lexeme, rest) => Some (JNumber lexeme, rest)
            | None => None
            end
      end
  end
with elements (fuel : nat) (s : jsstring) : option (list JSON * jsstring) :=
  match fuel with
  | O => None
  | S fuel' =>
      match value fuel' s with
      | Some (v, rest) =>
          match skipSpace rest with
          | c :: r =>
              if c =? COMMA then
                match elements fuel' r with
                | Some (vs, rest') => Some (v :: vs, rest')
                | None => None
                end
              else if c =? 93 then Some ([v], r)
              else None
          | [] => None
          end
      | None => None
      end
  end
with members (fuel : nat) (s : jsstring)
    : option (list (jsstring * JSON) * jsstring) :=
  match fuel with
  | O => None
  | S fuel' =>
      match skipSpace s with
      | q :: r0 =>
          if q =? DQUOTE then
            match stringBody r0 with
            | Some (key, r1) =>
                match skipSpace r1 with
                | colon :: r2 =>
                    if colon =? COLON then
                      match value fuel' r2 with
                      | Some (v, rest) =>
                          match skipSpace rest with
                          | c :: r =>
                              if c =? COMMA then
                                match members fuel' r with
                                | Some (ms, rest') => Some ((key, v) :: ms, rest')
                                | None => None
                                end
                              else if c =? 125 then Some ([(key, v)], r)
                              else None
                          | [] => None
                          end
                      | None => None
                      end
                    else None
                | [] => None
                end
            | None => None
            end
          else None
      | [] => None
      end
  end.

(** The message of the [SyntaxError] differs between engines; the model
    uses one fixed text. *)
Definition syntaxError : jsstring := js "SyntaxError: invalid JSON text".

Definition parse (text : jsstring) : jsstring + JSON :=
  match value (S (length text)) text with
  | Some (v, rest) =>
      match skipSpace rest with
      | [] => inr v
      | _ :: _ => inl syntaxError
      end
  | None => inl syntaxError
  end.

End JSONModel.

(** ** App.tsx: the live preview of the stream *)

Module Preview.

(** [s.lastIndexOf(m)]: the largest index at which [m] occurs in [s];
    [None] is the result -1. [s] is the text from index [i] on. *)
Fixpoint isPrefixOf (m s : jsstring) : bool :=
  match m, s with
  | [], _ => true
  | x :: m', y :: s' => (x =? y) && isPrefixOf m' s'
  | _ :: _, [] => false
  end.

Fixpoint lastIndexOf_from (s m : jsstring) (i : nat) (found : option nat)
    : option nat :=
  let found' := if isPrefixOf m s then Some i else found in
  match s with
  | [] => found'
  | _ :: r => lastIndexOf_from r m (S i) found'
  end.

Definition lastIndexOf (s m : jsstring) : option nat :=
  lastIndexOf_from s m 0 None.

Definition keyMarker : jsstring := jsq "'Pregunta'".

(** The first [for] loop: [l] is [streamSoFar] from index [i] on. The
    result is [valueStartIndex] ([None] for -1); [reads] collects the
    indices [i] at which [streamSoFar[i]] was read. *)
Fixpoint findValueStart (l : jsstring) (i : nat) (reads : list nat)
    : option nat * list nat :=
  match l with
  | [] => (None, reads)
  | c :: r =>
      if c =? DQUOTE then (Some (S i), reads ++ [i])
      else if negb (c =? COLON) && negb (c =? SPACE)
              && negb (c =? NEWLINE) && negb (c =? TAB)
      then (None, reads ++ [i])
      else findValueStart r (S i) (reads ++ [i])
  end.

(** The second [for] loop, from [valueStartIndex]: the result is
    [latestPreguntaContent] as the loop leaves it, [contentBuffer], and
    the indices read. *)
Fixpoint scanValue (l : jsstring) (i : nat) (contentBuffer : jsstring)
    (inEscape : bool) (reads : list nat) : jsstring * jsstring * list nat :=
  match l with
  | [] => ([], contentBuffer, reads)
  | char :: r =>
      if inEscape then
        scanValue r (S i) (contentBuffer ++ [char]) false (reads ++ [i])
      else if char =? BACKSLASH then
        scanValue r (S i) (contentBuffer ++ [char]) true (reads ++ [i])
      else if char =? DQUOTE then
        (contentBuffer, contentBuffer, reads ++ [i])
      else
        scanValue r (S i) (contentBuffer ++ [char]) inEscape (reads ++ [i])
  end.

Definition isEmpty (s : jsstring) : bool :=
  match s with
  | [] => true
  | _ :: _ => false
  end.

(** The scanning pass of the callback: [latestPreguntaContent] and the
    indices of [streamSoFar] its two loops read, in order. *)
Definition scanLatestPregunta (streamSoFar : jsstring) : jsstring * list nat :=
  match lastIndexOf streamSoFar keyMarker with
  | None => ([], [])
  | Some lastPreguntaKeyIndex =>
      let from := (lastPreguntaKeyIndex + length keyMarker)%nat in
      match findValueStart (drop from streamSoFar) from [] with
      | (None, reads) => ([], reads)
      | (Some valueStartIndex, reads) =>
          let '(latest, contentBuffer, reads') :=
            scanValue (drop valueStartIndex streamSoFar) valueStartIndex
                      [] false reads in
          (if isEmpty latest && negb (isEmpty contentBuffer)
           then contentBuffer else latest, reads')
      end
  end.

Definition latestPreguntaContent (streamSoFar : jsstring) : jsstring :=
  fst (scanLatestPregunta streamSoFar).

(** [s.replace] of every occurrence of one character. *)
Definition replaceChar (c : N) (by_ : jsstring) (s : jsstring) : jsstring :=
  flat_map (fun x => if x =? c then by_ else [x]) s.

Definition displayContent (latest : jsstring) : jsstring :=
  if (70 <? length latest)%nat
  then JS.substring 0 67 latest ++ js "..."
  else latest.

Definition escapedDisplayContent (display : jsstring) : jsstring :=
  replaceChar APOSTROPHE (js "&#039;")
    (replaceChar DQUOTE (js "&quot;")
      (replaceChar 62 (js "&gt;")
        (replaceChar 60 (js "&lt;")
          (replaceChar 38 (js "&amp;") display)))).

(** The markup handed to [setCurrentAnimatedPreviewText]. *)
Definition previewMarkup (display : jsstring) : jsstring :=
  jsq "Pregunta [<span class='text-blue-400 font-semibold'>"
  ++ escapedDisplayContent display ++ js "</span>] generada!".

(** The state the callback writes: the ref and the two pieces of React
    state. The timer that later clears the preview is not modelled. *)
Record UiState := mkUiState {
  currentRawStreamRef : jsstring;
  geminiLiveThought : jsstring;
  currentAnimatedPreviewText : option jsstring
}.

Definition setLiveStreamContentCallback (chunk : jsstring) (replace : bool)
    (ui : UiState) : UiState :=
  let streamSoFar :=
    if replace then chunk else currentRawStreamRef ui ++ chunk in
  let latest := latestPreguntaContent streamSoFar in
  {| currentRawStreamRef := streamSoFar;
     geminiLiveThought := streamSoFar;
     currentAnimatedPreviewText :=
       if isEmpty latest then currentAnimatedPreviewText ui
       else Some (previewMarkup (displayContent latest)) |}.

(** geminiService.ts, the body of the [for await] loop over the stream:
    [chunkText] is [None] when [chunk.text] is undefined; the pair is the
    UI state and [aggregatedStreamOutput]. *)
Definition receiveChunk (st : UiState * jsstring) (chunkText : option jsstring)
    : UiState * jsstring :=
  match chunkText with
  | None | Some [] => st
  | Some text =>
      (setLiveStreamContentCallback text false (fst st), snd st ++ text)
  end.

(** The call [setLiveStreamContent('', true)] and the loop. *)
Definition consumeStream (chunks : list (option jsstring)) (ui : UiState)
    : UiState * jsstring :=
  fold_left receiveChunk chunks (setLiveStreamContentCallback [] true ui, []).

(** The texts of the chunks, an undefined text counting as empty. *)
Definition chunkTexts (chunks : list (option jsstring)) : jsstring :=
  flat_map (fun c => match c with Some t => t | None => [] end) chunks.

End Preview.

(** ** constants.ts *)

Definition MAX_OVERALL_REQUEST_ATTEMPTS : nat := 2.
Definition MAX_JSON_CORRECTION_ATTEMPTS : nat := 5.

(** ** Thrown values

    [message] is [error.message] ([None] when the thrown value has none);
    [sourceAttempts] is the [jsonCorrectionAttempts] property that
    [processQueue] looks for on [error.sourceError || error], when it is a
    number. *)

Record JsError := mkJsError {
  message : option jsstring;
  sourceAttempts : option nat
}.

(** [new Error(msg)]. *)
Definition newError (msg : jsstring) : JsError :=
  {| message := Some msg; sourceAttempts := None |}.

(** [x || fallback] for a string that may be undefined: the fallback is
    taken for [undefined] and for the empty string. *)
Definition orElse (x : option jsstring) (fallback : jsstring) : jsstring :=
  match x with
  | Some (c :: s) => c :: s
  | _ => fallback
  end.

(** [!s || s.trim() === ''] for a string. *)
Definition isBlank (s : jsstring) : bool := Preview.isEmpty (JS.trim s).

(** ** services/geminiService.ts *)

Module Service.

(** What the function needs from its environment: the JavaScript engine
    and the remote model. Calls that can give a different answer each
    time take the number of earlier calls. *)
Record Engine := mkEngine {
  (** [JSON.parse]; [inl] carries the message of the [SyntaxError]. *)
  JSON_parse : jsstring → jsstring + JSON;
  (** [ai.models.generateContent] on a correction prompt: the error it
      throws or the [text] of the response. *)
  generateContent : nat → jsstring → JsError + jsstring;
  (** Message of the [TypeError] raised by calling [substring] on a value
      that is not a string. *)
  substringTypeError : JSON → jsstring;
  (** Whether a number is [0] or [NaN], and its decimal text. *)
  numberIsFalsy : jsstring → bool;
  Number_toString : jsstring → jsstring;
  (** The texts of [Date.now()] and of [Math.random().toString(36)]. *)
  Date_now : nat → jsstring;
  Math_random_base36 : nat → jsstring
}.

Section WithEngine.

Variable E : Engine.

(** [String(v)]. *)
Fixpoint String_ (v : JSON) : jsstring :=
  match v with
  | JNull => js "null"
  | JBool true => js "true"
  | JBool false => js "false"
  | JNumber lexeme => Number_toString E lexeme
  | JString s => s
  | JArray items =>
      JS.join [COMMA]
        (map (fun x => match x with JNull => [] | _ => String_ x end) items)
  | JObject _ => js "[object Object]"
  end.

(** Truthiness of a value read from an item. *)
Definition truthy (v : option JSON) : bool :=
  match v with
  | None | Some JNull => false
  | Some (JBool b) => b
  | Some (JNumber lexeme) => negb (numberIsFalsy E lexeme)
  | Some (JString s) => negb (Preview.isEmpty s)
  | Some (JArray _) | Some (JObject _) => true
  end.

Definition backticks : jsstring := js "```".

Definition endsWithBackticks (s : jsstring) : bool :=
  Preview.isPrefixOf backticks (rev s).

(** Group 1 of [fenceRegex], given the text [r] that follows the opening
    fence (and the word json, when the pattern took it): [r] must end
    with the closing fence, and the white space on both sides of the
    group is taken by the greedy and the lazy parts of the pattern. *)
Definition fenceGroupAfter (r : jsstring) : option jsstring :=
  if endsWithBackticks r then Some (JS.trim (take (length r - 3) r))
  else None.

(** [jsonStrToParse.match(fenceRegex)], as its group 1: the optional
    word json is tried first, then the pattern without it. *)
Definition fenceMatch (s : jsstring) : option jsstring :=
  if Preview.isPrefixOf backticks s then
    let r := drop 3 s in
    match (if Preview.isPrefixOf (js "json") r
           then fenceGroupAfter (drop 4 r) else None) with
    | Some g => Some g
    | None => fenceGroupAfter r
    end
  else None.

Definition stripFence (jsonStrToParse : jsstring) : jsstring :=
  match fenceMatch jsonStrToParse with
  | Some (c :: g) => JS.trim (c :: g)
  | _ => jsonStrToParse
  end.

Definition optionalField (item : JSON) (key : jsstring) : option jsstring :=
  match getProperty item key with
  | None | Some JNull => None
  | Some v => Some (String_ v)
  end.

(** The message built for an item without the required fields. Calling
    [substring] on a truthy [itemPregunta] that is not a string raises
    a [TypeError] instead, whose message is the engine's. *)
Definition requiredFieldsMessage (i : nat) (itemPregunta : option JSON)
    : jsstring :=
  let shown :=
    match itemPregunta with
    | Some (JString (c :: s)) => inr (JS.substring 0 20 (c :: s) ++ js "...")
    | Some v => if truthy itemPregunta then inl (substringTypeError E v)
                else inr (js "Pregunta Vacía")
    | None => inr (js "Pregunta Vacía")
    end in
  match shown with
  | inl typeError => typeError
  | inr text =>
      js "Item " ++ natToString i ++ js " (" ++ text
      ++ js ") en el array JSON no tiene los campos requeridos 'Pregunta' y 'Opción correcta 1' como strings no vacíos."
  end.

(** [typeof x === 'string' && x.trim() !== '']. *)
Definition nonBlankString (v : option JSON) : option jsstring :=
  match v with
  | Some (JString s) => if isBlank s then None else Some s
  | _ => None
  end.

(** The body of the [for] loop over [parsedData.entries()] for one
    item; [tick] counts the ids generated so far. *)
Definition parseItem (i : nat) (item : JSON) (tick : nat)
    : JsError + (QuestionData * nat) :=
  match item with
  | JArray _ | JObject _ =>
      let itemPregunta := getProperty item (js "Pregunta") in
      let itemOpcionCorrecta1 := getProperty item (js "Opción correcta 1") in
      match nonBlankString itemPregunta, nonBlankString itemOpcionCorrecta1 with
      | Some pregunta, Some correcta1 =>
          let itemExplicacion :=
            match getProperty item (js "Explicación") with
            | None | Some JNull => []
            | Some v => String_ v
            end in
          let '(finalId, tick') :=
            match nonBlankString (getProperty item (js "id")) with
            | Some itemIdFromGemini => (itemIdFromGemini, tick)
            | None =>
                (js "gen-" ++ Date_now E tick ++ js "-"
                 ++ JS.substring 2 9 (Math_random_base36 E tick), S tick)
            end in
          inr ({| id := finalId;
                  Pregunta := pregunta;
                  Opción_correcta_1 := correcta1;
                  Opción_Correcta_2 := optionalField item (js "Opción Correcta 2");
                  Opción_Correcta_3 := optionalField item (js "Opción Correcta 3");
                  Opción_Incorrecta_1 := optionalField item (js "Opción Incorrecta 1");
                  Opción_Incorrecta_2 := optionalField item (js "Opción Incorrecta 2");
                  Opción_Incorrecta_3 := optionalField item (js "Opción Incorrecta 3");
                  Explicación := Some itemExplicacion |}, tick')
      | _, _ => inl (newError (requiredFieldsMessage i itemPregunta))
      end
  | _ =>
      inl (newError (js "Item " ++ natToString i
                     ++ js " en el array JSON no es un objeto."))
  end.

(** The loop over the items: [parsedQuestions] grows by one question
    per item until an item throws. *)
Fixpoint parseItems (items : list JSON) (i : nat) (tick : nat)
    (parsedQuestions : list QuestionData)
    : (JsError + list QuestionData) * nat :=
  match items with
  | [] => (inr parsedQuestions, tick)
  | item :: rest =>
      match parseItem i item tick with
      | inl e => (inl e, tick)
      | inr (questionEntry, tick') =>
          parseItems rest (S i) tick' (parsedQuestions ++ [questionEntry])
      end
  end.

(** The [try] block from the trimming of the raw output to its
    [return]: what is thrown, or the questions. *)
Definition parseAndValidate (lastGeminiRawOutput : jsstring) (tick : nat)
    : (JsError + list QuestionData) * nat :=
  let jsonStrToParse := stripFence (JS.trim lastGeminiRawOutput) in
  match JSON_parse E jsonStrToParse with
  | inl syntaxError => (inl (newError syntaxError), tick)
  | inr (JArray parsedData) =>
      match parseItems parsedData 0 tick [] with
      | (inl e, tick') => (inl e, tick')
      | (inr parsedQuestions, tick') =>
          if (0 <? length parsedData)%nat && (length parsedQuestions =? 0)%nat
          then (inl (newError (js "El array JSON fue recibido, pero ningún objeto cumplió la estructura esperada para las preguntas.")), tick')
          else if (length parsedQuestions =? 0)%nat
                  && (length parsedData =? 0)%nat
                  && negb (Preview.isEmpty (JS.trim jsonStrToParse))
                  && negb (bool_decide (JS.trim jsonStrToParse = js "[]"))
          then (inl (newError
                 (js "Gemini no generó ninguna pregunta válida en el JSON. JSON parseado resultó en 0 preguntas. Contenido parseado: "
                  ++ JS.substring 0 200 jsonStrToParse ++ js "...")), tick')
          else (inr parsedQuestions, tick')
      end
  | inr parsedData =>
      (inl (newError (js "La respuesta JSON no es un array. Recibido: "
                      ++ typeof parsedData)), tick)
  end.

Definition questionObjectStructure : jsstring :=
  JS.join [NEWLINE]
    [ js "{";
      jsq "  'id': 'string_or_null (SOLO para preguntas REESCRITAS, usa el ID original. Para preguntas NUEVAS, omite este campo o usa null)',";
      jsq "  'Pregunta': 'string',";
      jsq "  'Opción correcta 1': 'string',";
      jsq "  'Opción Correcta 2': 'string_or_empty_string', ";
      jsq "  'Opción Correcta 3': 'string_or_empty_string',";
      jsq "  'Opción Incorrecta 1': 'string_or_empty_string',";
      jsq "  'Opción Incorrecta 2': 'string_or_empty_string',";
      jsq "  'Opción Incorrecta 3': 'string_or_empty_string',";
      jsq "  'Explicación': 'string_or_empty_string' ";
      js "}" ].

Definition constructJsonCorrectionPrompt (faultyJsonOutput : jsstring)
    (parsingErrorDetails : jsstring) : jsstring :=
  JS.join [NEWLINE]
    [ js "Tu tarea anterior era generar un array JSON de preguntas, pero hubo un error en el formato de tu respuesta.";
      [];
      jsq "El error detectado fue: '" ++ parsingErrorDetails ++ [DQUOTE];
      [];
      js "La respuesta ANTERIOR que generaste y que necesita CORRECCIÓN es:";
      js "---";
      faultyJsonOutput;
      js "---";
      [];
      js "Por favor, corrige ÚNICAMENTE el formato JSON de la respuesta anterior.";
      js "Asegúrate de que la respuesta sea un array JSON VÁLIDO.";
      js "Cada objeto en el array DEBE seguir esta estructura:";
      questionObjectStructure;
      [];
      js "NO generes preguntas nuevas. NO cambies el contenido sustancial de las preguntas si no es estrictamente necesario para corregir el formato JSON.";
      js "Verifica comillas, comas, llaves y corchetes para asegurar que el JSON sea válido.";
      jsq "Si un campo opcional no se usa, usa una cadena vacía `''`. NO uses `null` para campos de opciones/explicación. Para el campo 'id', sigue las instrucciones: ID original para reescritas, null u omitido para nuevas.";
      js "La 'Explicación' es obligatoria y debe ser una cadena (puede ser `" ++ [DQUOTE; DQUOTE] ++ js "` si es imposible una explicación).";
      [];
      [];
      js "Vuelve a generar la respuesta COMPLETA, con el formato JSON corregido. Solo el array JSON.";
      [] ].

Definition emptyResponseMessage : jsstring :=
  js "Gemini devolvió una respuesta JSON vacía.".

(** *** The correction loop *)

Record GenerationResult := mkGenerationResult {
  rawText : jsstring;
  parsedQuestions : list QuestionData;
  resultCorrectionAttempts : nat
}.

(** One entry per iteration of the [while] loop, as its log calls
    report it: the correction prompt sent in the iteration, if any, the
    raw output it ended with, and what it concluded. *)
Inductive Verdict :=
| Accepted (questions : list QuestionData)
| Rejected (error : option jsstring).

Record Attempt := mkAttempt {
  correctionPrompt : option jsstring;
  examined : jsstring;
  verdict : Verdict
}.

(** The variables of the function the loop reads and writes, and its
    effects: the attempts made and the number of ids generated. *)
Record LoopState := mkLoopState {
  jsonCorrectionAttempts : nat;
  lastGeminiRawOutput : jsstring;
  lastJsonErrorForReprompt : option jsstring;
  attempts : list Attempt;
  idsGenerated : nat
}.

Definition correctionCalls (st : LoopState) : nat :=
  length (filter (fun a => is_Some (correctionPrompt a)) (attempts st)).

Inductive Step :=
| Continue (st : LoopState)
| Return (result : GenerationResult) (st : LoopState).

(** The body of the [while] loop: the [try] block, its [catch], and the
    increment that follows them. *)
Definition iteration (st : LoopState) : Step :=
  let n := jsonCorrectionAttempts st in
  let prompt :=
    if (0 <? n)%nat
    then Some (constructJsonCorrectionPrompt (lastGeminiRawOutput st)
                 (orElse (lastJsonErrorForReprompt st)
                         (js "Error de parseo desconocido")))
    else None in
  let response :=
    match prompt with
    | Some correctionPromptText =>
        generateContent E (correctionCalls st) correctionPromptText
    | None => inr (lastGeminiRawOutput st)
    end in
  match response with
  | inl error =>
      (* thrown by the correction request: caught, then the increment *)
      Continue {| jsonCorrectionAttempts := S n;
                  lastGeminiRawOutput := lastGeminiRawOutput st;
                  lastJsonErrorForReprompt := message error;
                  attempts := attempts st ++
                    [mkAttempt prompt (lastGeminiRawOutput st)
                               (Rejected (message error))];
                  idsGenerated := idsGenerated st |}
  | inr raw =>
      if isBlank raw then
        (* the empty answer: the increment and [continue] *)
        Continue {| jsonCorrectionAttempts := S n;
                    lastGeminiRawOutput := raw;
                    lastJsonErrorForReprompt := Some emptyResponseMessage;
                    attempts := attempts st ++
                      [mkAttempt prompt raw (Rejected (Some emptyResponseMessage))];
                    idsGenerated := idsGenerated st |}
      else
        match parseAndValidate raw (idsGenerated st) with
        | (inl error, tick) =>
            Continue {| jsonCorrectionAttempts := S n;
                        lastGeminiRawOutput := raw;
                        lastJsonErrorForReprompt := message error;
                        attempts := attempts st ++
                          [mkAttempt prompt raw (Rejected (message error))];
                        idsGenerated := tick |}
        | (inr questions, tick) =>
            Return {| rawText := raw;
                      parsedQuestions := questions;
                      resultCorrectionAttempts := n |}
                   {| jsonCorrectionAttempts := n;
                      lastGeminiRawOutput := raw;
                      lastJsonErrorForReprompt := lastJsonErrorForReprompt st;
                      attempts := attempts st ++
                        [mkAttempt prompt raw (Accepted questions)];
                      idsGenerated := tick |}
        end
  end.

Inductive Completion :=
| Returned (result : GenerationResult)
| Threw (error : JsError).

Definition finalError (requestPrompt : jsstring) (st : LoopState) : JsError :=
  let finalErrorMsg :=
    js "Fallaron todos los " ++ natToString MAX_JSON_CORRECTION_ATTEMPTS
    ++ jsq " intentos de corrección de formato JSON para la solicitud '"
    ++ JS.substring 0 50 requestPrompt ++ jsq "...'. Último error: "
    ++ orElse (lastJsonErrorForReprompt st)
              (js "Error desconocido después de múltiples intentos.") in
  newError (finalErrorMsg ++ jsq ". Respuesta final de Gemini: '"
            ++ JS.substring 0 300 (lastGeminiRawOutput st) ++ jsq "...'").

(** The [while] loop and the [throw] after it. [fuel] bounds the number
    of times the loop condition is evaluated; [None] means that the
    bound was reached. *)
Fixpoint whileLoop (fuel : nat) (requestPrompt : jsstring) (st : LoopState)
    : option (Completion * LoopState) :=
  match fuel with
  | O => None
  | S fuel' =>
      if (jsonCorrectionAttempts st <? MAX_JSON_CORRECTION_ATTEMPTS)%nat then
        match iteration st with
        | Continue st' => whileLoop fuel' requestPrompt st'
        | Return result st' => Some (Returned result, st')
        end
      else Some (Threw (finalError requestPrompt st), st)
  end.

(** The answer to the initial streaming request: the chunks it
    delivers, and the error that ends it when the request or the
    iteration over the stream throws. The files and the texts that make
    up the initial prompt only reach the model, whose answer this is. *)
Record StreamResponse := mkStreamResponse {
  chunks : list (option jsstring);
  failure : option JsError
}.

Record Outcome := mkOutcome {
  completion : Completion;
  ui : Preview.UiState;
  loop : option LoopState
}.

Definition initialLoopState (aggregatedStreamOutput : jsstring) : LoopState :=
  {| jsonCorrectionAttempts := 0;
     lastGeminiRawOutput := aggregatedStreamOutput;
     lastJsonErrorForReprompt := None;
     attempts := [];
     idsGenerated := 0 |}.

Definition generateQuestionsFromGemini (fuel : nat)
    (apiKey requestPrompt : jsstring) (stream : StreamResponse)
    (ui0 : Preview.UiState) : option Outcome :=
  if Preview.isEmpty apiKey then
    Some {| completion :=
              Threw (newError (js "API_KEY no fue proporcionada al servicio Gemini."));
            ui := ui0; loop := None |}
  else
    let '(ui1, aggregatedStreamOutput) :=
      Preview.consumeStream (chunks stream) ui0 in
    match failure stream with
    | Some streamError =>
        Some {| completion := Threw streamError; ui := ui1; loop := None |}
    | None =>
        match whileLoop fuel requestPrompt
                (initialLoopState aggregatedStreamOutput) with
        | Some (c, st) => Some {| completion := c; ui := ui1; loop := Some st |}
        | None => None
        end
    end.

End WithEngine.

End Service.

(** ** App.tsx: the request queue *)

Inductive RequestStatus := Pending | Processing | Completed | Error.

#[global] Instance RequestStatus_eq_dec : EqDecision RequestStatus.
Proof. solve_decision. Defined.

Module Request.

(** [GenerationRequest], with the fields [processQueue] reads and writes;
    an absent optional field is [None]. *)
Record t := mk {
  id : jsstring;
  prompt : jsstring;
  status : RequestStatus;
  errorDetails : option jsstring;
  jsonCorrectionAttempts : option nat;
  questionsGeneratedCount : option nat
}.

End Request.

Definition isFieldEmpty (value : option jsstring) : bool :=
  match value with
  | None => true
  | Some v => isBlank v
  end.

(** The updater given to [setGeneratedQuestions]. First the [map] over the
    previous list, which also fills [processedIdsFromGemini]. *)
Fixpoint rewriteExisting (prevGeneratedQuestions questionsFromCurrentGeminiCall
    : list QuestionData) (processedIdsFromGemini : gset jsstring)
    : list QuestionData * gset jsstring :=
  match prevGeneratedQuestions with
  | [] => ([], processedIdsFromGemini)
  | existingQ :: rest =>
      match List.find (fun nq => bool_decide (id nq = id existingQ))
                      questionsFromCurrentGeminiCall with
      | Some rewrittenVersion =>
          let '(l, processed) :=
            rewriteExisting rest questionsFromCurrentGeminiCall
              ({[ id rewrittenVersion ]} ∪ processedIdsFromGemini) in
          (rewrittenVersion :: l, processed)
      | None =>
          let '(l, processed) :=
            rewriteExisting rest questionsFromCurrentGeminiCall
              processedIdsFromGemini in
          (existingQ :: l, processed)
      end
  end.

(** Then the [forEach] over the batch, which pushes onto [updatedList]. *)
Fixpoint appendNew (questionsFromCurrentGeminiCall : list QuestionData)
    (processedIdsFromGemini : gset jsstring) (updatedList : list QuestionData)
    : list QuestionData :=
  match questionsFromCurrentGeminiCall with
  | [] => updatedList
  | nq :: rest =>
      if decide (id nq ∈ processedIdsFromGemini) then
        appendNew rest processedIdsFromGemini updatedList
      else if existsb (fun uq => bool_decide (id uq = id nq)) updatedList then
        appendNew rest processedIdsFromGemini updatedList
      else appendNew rest processedIdsFromGemini (updatedList ++ [nq])
  end.

Definition mergeQuestions (prevGeneratedQuestions newQsFromGemini
    : list QuestionData) : list QuestionData :=
  let '(updatedList, processedIdsFromGemini) :=
    rewriteExisting prevGeneratedQuestions newQsFromGemini ∅ in
  appendNew newQsFromGemini processedIdsFromGemini updatedList.

Module Queue.

(** The objects the three calls of [setRequests] put in place of the
    current request. *)
Definition asProcessing (r : Request.t) : Request.t :=
  {| Request.id := Request.id r;
     Request.prompt := Request.prompt r;
     Request.status := Processing;
     Request.errorDetails := None;
     Request.jsonCorrectionAttempts := Some 0%nat;
     Request.questionsGeneratedCount := Some 0%nat |}.

Definition asCompleted (jsonCorrectionAttempts questions : nat) (r : Request.t)
    : Request.t :=
  {| Request.id := Request.id r;
     Request.prompt := Request.prompt r;
     Request.status := Completed;
     Request.errorDetails := None;
     Request.jsonCorrectionAttempts := Some jsonCorrectionAttempts;
     Request.questionsGeneratedCount := Some questions |}.

Definition asError (lastOverallAttemptError : jsstring)
    (jsonCorrectionAttempts : nat) (r : Request.t) : Request.t :=
  {| Request.id := Request.id r;
     Request.prompt := Request.prompt r;
     Request.status := Error;
     Request.errorDetails := Some lastOverallAttemptError;
     Request.jsonCorrectionAttempts := Some jsonCorrectionAttempts;
     Request.questionsGeneratedCount := Some 0%nat |}.

(** [prevReqs.map(r => r.id === target ? f r : r)]. *)
Definition updateById (target : jsstring) (f : Request.t → Request.t)
    (prevReqs : list Request.t) : list Request.t :=
  map (fun r => if decide (Request.id r = target) then f r else r) prevReqs.

(** What the run does that an observer of the queue can see, in order: a
    status written by [setRequests], a call of
    [generateQuestionsFromGemini], the error it threw as the [catch] block
    logs it, a merge by [setGeneratedQuestions]. *)
Inductive Event :=
| StatusSet (request : jsstring) (status : RequestStatus)
| GenerationBegins (request : jsstring) (overallAttempt : nat)
| GenerationThrew (request : jsstring) (lastOverallAttemptError : jsstring)
| QuestionsMerged (request : jsstring).

(** The React state the run writes. Updaters given to the setters are
    applied in the order of the calls. [history] keeps each event with the
    requests as they are once it has happened. *)
Record AppState := mkAppState {
  requests : list Request.t;
  generatedQuestions : list QuestionData;
  isProcessing : bool;
  globalError : option jsstring;
  generateCalls : nat;
  history : list (Event * list Request.t)
}.

Definition record (e : Event) (s : AppState) : AppState :=
  {| requests := requests s;
     generatedQuestions := generatedQuestions s;
     isProcessing := isProcessing s;
     globalError := globalError s;
     generateCalls := generateCalls s;
     history := history s ++ [(e, requests s)] |}.

Definition setRequests (update : list Request.t → list Request.t)
    (s : AppState) : AppState :=
  {| requests := update (requests s);
     generatedQuestions := generatedQuestions s;
     isProcessing := isProcessing s;
     globalError := globalError s;
     generateCalls := generateCalls s;
     history := history s |}.

Definition setGeneratedQuestions
    (update : list QuestionData → list QuestionData) (s : AppState)
    : AppState :=
  {| requests := requests s;
     generatedQuestions := update (generatedQuestions s);
     isProcessing := isProcessing s;
     globalError := globalError s;
     generateCalls := generateCalls s;
     history := history s |}.

Definition countGeneration (s : AppState) : AppState :=
  {| requests := requests s;
     generatedQuestions := generatedQuestions s;
     isProcessing := isProcessing s;
     globalError := globalError s;
     generateCalls := S (generateCalls s);
     history := history s |}.

Definition setIsProcessing (b : bool) (s : AppState) : AppState :=
  {| requests := requests s;
     generatedQuestions := generatedQuestions s;
     isProcessing := b;
     globalError := globalError s;
     generateCalls := generateCalls s;
     history := history s |}.

Definition setGlobalError (e : option jsstring) (s : AppState) : AppState :=
  {| requests := requests s;
     generatedQuestions := generatedQuestions s;
     isProcessing := isProcessing s;
     globalError := e;
     generateCalls := generateCalls s;
     history := history s |}.

(** The filter that chooses [pendingOrErrorRequests]. *)
Definition selected (r : Request.t) : bool :=
  match Request.status r with
  | Pending | Error => true
  | Processing | Completed => false
  end.

(** [existingQuestionsCsv], from the list the callback closed over. *)
Definition existingQuestionsCsvOf (generatedQuestions0 : list QuestionData)
    : option jsstring :=
  if (0 <? length generatedQuestions0)%nat
  then Some (generateCsvString
               (List.filter (fun q => negb (isFieldEmpty (Some (Pregunta q))))
                            generatedQuestions0))
  else None.

(** [error.message || ...] in the [catch] block. *)
Definition lastErrorOf (error : JsError) : jsstring :=
  orElse (message error) (js "Error desconocido de Gemini.").

Section WithGenerator.

(** [generateQuestionsFromGemini] as the run calls it: the number of
    earlier calls, the request, [existingQuestionsCsv] and
    [lastOverallAttemptError] decide whether it throws or returns
    [parsedQuestions] and [jsonCorrectionAttempts]. *)
Variable generate :
  nat → Request.t → option jsstring → option jsstring →
  JsError + (list QuestionData * nat).

(** The variables of the attempt loop. *)
Record Attempts := mkAttempts {
  overallAttempt : nat;
  successInRequest : bool;
  lastOverallAttemptError : option jsstring;
  totalJsonCorrectionAttemptsForThisRequest : nat
}.

(** The rest of the [try] block once the call has returned. *)
Definition attemptReturned (target : jsstring)
    (newQsFromGemini : list QuestionData) (jsonCorrectionAttempts : nat)
    (v : Attempts) (s : AppState) : Attempts * AppState :=
  let s2 :=
    record (QuestionsMerged target)
      (setGeneratedQuestions
         (fun prev => mergeQuestions prev newQsFromGemini) s) in
  let s3 :=
    record (StatusSet target Completed)
      (setRequests
         (updateById target
            (asCompleted jsonCorrectionAttempts (length newQsFromGemini)))
         s2) in
  ({| overallAttempt := S (overallAttempt v);
      successInRequest := true;
      lastOverallAttemptError := lastOverallAttemptError v;
      totalJsonCorrectionAttemptsForThisRequest := jsonCorrectionAttempts |},
   s3).

(** The [catch] block, and the increment after it. *)
Definition attemptThrew (target : jsstring) (error : JsError)
    (v : Attempts) (s : AppState) : Attempts * AppState :=
  let lastError := lastErrorOf error in
  let total :=
    match sourceAttempts error with
    | Some attemptsFromError => attemptsFromError
    | None => totalJsonCorrectionAttemptsForThisRequest v
    end in
  let s2 := record (GenerationThrew target lastError) s in
  let s3 :=
    if (overallAttempt v =? MAX_OVERALL_REQUEST_ATTEMPTS - 1)%nat then
      record (StatusSet target Error)
        (setRequests (updateById target (asError lastError total)) s2)
    else s2 in
  ({| overallAttempt := S (overallAttempt v);
      successInRequest := false;
      lastOverallAttemptError := Some lastError;
      totalJsonCorrectionAttemptsForThisRequest := total |},
   s3).

(** The body of the [while] loop of one request. *)
Definition attempt (currentRequest : Request.t)
    (existingQuestionsCsv : option jsstring) (v : Attempts) (s : AppState)
    : Attempts * AppState :=
  let target := Request.id currentRequest in
  let s1 := countGeneration (record (GenerationBegins target (overallAttempt v)) s) in
  match generate (generateCalls s) currentRequest existingQuestionsCsv
                 (lastOverallAttemptError v) with
  | inr (newQsFromGemini, jsonCorrectionAttempts) =>
      attemptReturned target newQsFromGemini jsonCorrectionAttempts v s1
  | inl error => attemptThrew target error v s1
  end.

(** The [while] loop of one request; [None] when [fuel] evaluations of its
    condition do not end it. *)
Fixpoint attemptLoop (fuel : nat) (currentRequest : Request.t)
    (existingQuestionsCsv : option jsstring) (v : Attempts) (s : AppState)
    : option (Attempts * AppState) :=
  match fuel with
  | O => None
  | S fuel' =>
      if (overallAttempt v <? MAX_OVERALL_REQUEST_ATTEMPTS)%nat
         && negb (successInRequest v)
      then
        let '(v', s') := attempt currentRequest existingQuestionsCsv v s in
        attemptLoop fuel' currentRequest existingQuestionsCsv v' s'
      else Some (v, s)
  end.

Definition initialAttempts : Attempts :=
  {| overallAttempt := 0;
     successInRequest := false;
     lastOverallAttemptError := None;
     totalJsonCorrectionAttemptsForThisRequest := 0 |}.

(** The body of the [for] loop: one selected request.
    [generatedQuestions0] is the list the callback closed over. *)
Definition processRequest (fuel : nat) (generatedQuestions0 : list QuestionData)
    (currentRequest : Request.t) (s : AppState)
    : option (Attempts * AppState) :=
  let target := Request.id currentRequest in
  let s1 :=
    record (StatusSet target Processing)
      (setRequests (updateById target asProcessing) s) in
  attemptLoop fuel currentRequest (existingQuestionsCsvOf generatedQuestions0)
              initialAttempts s1.

(** The [for] loop over [pendingOrErrorRequests]. *)
Fixpoint processAll (fuel : nat) (generatedQuestions0 : list QuestionData)
    (pendingOrErrorRequests : list Request.t) (s : AppState)
    : option AppState :=
  match pendingOrErrorRequests with
  | [] => Some s
  | currentRequest :: rest =>
      match processRequest fuel generatedQuestions0 currentRequest s with
      | Some (_, s') => processAll fuel generatedQuestions0 rest s'
      | None => None
      end
  end.

(** [processQueue]: [apiKey] is the result of [getEffectiveApiKey()]; the
    state [s] holds the [requests] and the [generatedQuestions] the
    callback closed over. *)
Definition processQueue (fuel : nat) (apiKey : option jsstring) (s : AppState)
    : option AppState :=
  match apiKey with
  | None | Some [] =>
      Some (setIsProcessing false
              (setGlobalError
                 (Some (js "Error Crítico: No se pudo determinar la API_KEY de Gemini. Configure una clave en el entorno o a través de la configuración de la aplicación."))
                 s))
  | Some _ =>
      let s1 := setIsProcessing true (setGlobalError None s) in
      let pendingOrErrorRequests := List.filter selected (requests s) in
      match processAll fuel (generatedQuestions s) pendingOrErrorRequests s1 with
      | Some s2 => Some (setIsProcessing false s2)
      | None => None
      end
  end.

End WithGenerator.

End Queue.

(** *** The merge as the specification words it *)

Module MergeSpec.

Definition ids (l : list QuestionData) : list jsstring := map id l.

(** The batch version of a question: the first batch question with its
    id, or the question itself when the batch has none. *)
Definition batchVersion (batch : list QuestionData) (q : QuestionData)
    : QuestionData :=
  match List.find (fun nq => bool_decide (id nq = id q)) batch with
  | Some nq => nq
  | None => q
  end.

(** How often an id occurs in a list of questions. *)
Definition occurrences (x : jsstring) (l : list QuestionData) : nat :=
  length (filter (fun q => id q = x) l).

End MergeSpec.



(** *** The run of the queue as an observer sees it *)

Module QueueSpec.

Import Queue.

Definition events (s : AppState) : list Event := map fst (history s).

(** The events of one request: it is set to [Processing], generation is
    attempted once or twice, and it is set to [Completed] after the attempt
    that returned, or to [Error] after the second that threw. *)
Definition requestLog (target : jsstring) (log : list Event) : Prop :=
  log = [ StatusSet target Processing; GenerationBegins target 0;
          QuestionsMerged target; StatusSet target Completed ]
  ∨ (∃ m1, log = [ StatusSet target Processing; GenerationBegins target 0;
                   GenerationThrew target m1; GenerationBegins target 1;
                   QuestionsMerged target; StatusSet target Completed ])
  ∨ (∃ m1 m2, log = [ StatusSet target Processing; GenerationBegins target 0;
                      GenerationThrew target m1; GenerationBegins target 1;
                      GenerationThrew target m2; StatusSet target Error ]).

(** No request with one of the ids is being processed. *)
Definition quiet (ids : list jsstring) (l : list Request.t) : Prop :=
  ∀ r, r ∈ l → Request.id r ∈ ids → Request.status r ≠ Processing.

(** The total number of JSON corrections stored with a failed request. *)
Definition totalAfter (e1 e2 : JsError) : nat :=
  match sourceAttempts e2 with
  | Some a => a
  | None => match sourceAttempts e1 with Some a => a | None => 0%nat end
  end.

(** How many of the requests with one of the given ids are [Processing]. *)
Definition processingCount (ids : list jsstring) (snapshot : list Request.t)
    : nat :=
  length (filter (fun r => Request.status r = Processing ∧ Request.id r ∈ ids)
                 snapshot).

End QueueSpec.

(** *** The preview as the specification words it *)

Module PreviewSpec.

Import Preview.

(** The string value of the latest [Pregunta] field of the JSON array that
    a text contains, by the model of [JSON.parse]. *)
Definition preguntaOf (item : JSON) : option jsstring :=
  match getProperty item (js "Pregunta") with
  | Some (JString v) => Some v
  | _ => None
  end.

Definition latestPreguntaValue (text : jsstring) : option jsstring :=
  match JSONModel.parse text with
  | inr (JArray items) => last (omap preguntaOf items)
  | _ => None
  end.

(** What the claim promises of the states of a stream: after each chunk,
    the aggregated text is the concatenation of the chunks so far, and the
    preview shows the value of the latest [Pregunta] field of the array in
    that text, cut to 70 characters. *)
Definition claimed (chunks : list (option jsstring)) (ui : UiState) : Prop :=
  ∀ n,
    let '(ui', aggregated) := consumeStream (take n chunks) ui in
    aggregated = chunkTexts (take n chunks)
    ∧ ∀ v, latestPreguntaValue aggregated = Some v →
           currentAnimatedPreviewText ui' = Some (previewMarkup (take 70 v)).

(** The characters the first loop steps over between the key and the
    opening quote of its value. *)
Definition isSeparator (c : N) : bool :=
  (c =? COLON) || (c =? SPACE) || (c =? NEWLINE) || (c =? TAB).

(** A stretch of text without an unescaped double quote, read from a given
    escape state: [Some e] gives the escape state at its end. *)
Fixpoint rawBody (body : jsstring) (inEscape : bool) : option bool :=
  match body with
  | [] => Some inEscape
  | c :: r =>
      if inEscape then rawBody r false
      else if c =? BACKSLASH then rawBody r true
      else if c =? DQUOTE then None
      else rawBody r false
  end.

(** The indices the scanning pass reads. *)
Definition reads (streamSoFar : jsstring) : list nat :=
  snd (scanLatestPregunta streamSoFar).

Definition emptyUi : UiState :=
  {| currentRawStreamRef := [];
     geminiLiveThought := [];
     currentAnimatedPreviewText := None |}.

End PreviewSpec.

(** *** The correction loop as the specification words it *)

Module ServiceSpec.

Import Service.


Section WithEngine.

Variable E : Engine.

(** What an attempt concludes from a raw output: the empty answer, what
    parsing and validation throw, or the questions. *)
Definition judge (raw : jsstring) (tick : nat) : Verdict :=
  if isBlank raw then Rejected (Some emptyResponseMessage)
  else
    match parseAndValidate E raw tick with
    | (inl error, _) => Rejected (message error)
    | (inr questions, _) => Accepted questions
    end.

Definition correctionPromptFor (faultyOutput : jsstring)
    (error : option jsstring) : jsstring :=
  constructJsonCorrectionPrompt faultyOutput
    (orElse error (js "Error de parseo desconocido")).




(** The text handed to [JSON.parse]. *)
Definition jsonText (raw : jsstring) : jsstring :=
  stripFence (JS.trim raw).

(** An item that is a question object: it has [Pregunta] and
    [Opción correcta 1] as strings that are not blank. *)
Definition validItem (item : JSON) : bool :=
  match nonBlankString (getProperty item (js "Pregunta")),
        nonBlankString (getProperty item (js "Opción correcta 1")) with
  | Some _, Some _ => true
  | _, _ => false
  end.

(** The failure the claim words: the output is empty, or it does not parse
    as a JSON array of valid question objects. *)
Definition outputFails (raw : jsstring) : Prop :=
  isBlank raw = true
  ∨ match JSON_parse E (jsonText raw) with
    | inr (JArray items) => forallb validItem items = false
    | _ => True
    end.


(** The prompt an iteration sends, if any. *)
Definition stepPrompt (st : LoopState) : option jsstring :=
  if (0 <? jsonCorrectionAttempts st)%nat
  then Some (correctionPromptFor (lastGeminiRawOutput st)
                                 (lastJsonErrorForReprompt st))
  else None.

(** What the attempt of an iteration examines and concludes. *)
Definition stepFacts (st : LoopState) (a : Attempt) : Prop :=
  correctionPrompt a = stepPrompt st
  ∧ match stepPrompt st with
    | Some P =>
        match generateContent E (correctionCalls st) P with
        | inl error =>
            examined a = lastGeminiRawOutput st
            ∧ verdict a = Rejected (message error)
        | inr raw => examined a = raw ∧ ∃ tick, verdict a = judge raw tick
        end
    | None =>
        examined a = lastGeminiRawOutput st
        ∧ ∃ tick, verdict a = judge (lastGeminiRawOutput st) tick
    end.

(** The text of an empty array that the code accepts. *)
Definition plainEmptyArray (raw : jsstring) : bool :=
  Preview.isEmpty (JS.trim (jsonText raw))
  || bool_decide (JS.trim (jsonText raw) = js "[]").

(** The claim about the result: the function throws if and only if every
    attempt failed in the sense of [outputFails]. *)
Definition claimed (out : Outcome) : Prop :=
  match loop out with
  | Some st =>
      (∃ e, completion out = Threw e)
      ↔ Forall (fun a => outputFails (examined a)) (attempts st)
  | None => True
  end.

(** How a returned question comes from the item it was built from. *)
Definition fromItem (item : JSON) (q : QuestionData) : Prop :=
  nonBlankString (getProperty item (js "Pregunta")) = Some (Pregunta q)
  ∧ nonBlankString (getProperty item (js "Opción correcta 1"))
    = Some (Opción_correcta_1 q)
  ∧ Explicación q
    = Some match getProperty item (js "Explicación") with
           | None | Some JNull => []
           | Some v => String_ E v
           end
  ∧ match nonBlankString (getProperty item (js "id")) with
    | Some supplied => id q = supplied
    | None =>
        ∃ tick, id q = js "gen-" ++ Date_now E tick ++ js "-"
                       ++ JS.substring 2 9 (Math_random_base36 E tick)
    end.

End WithEngine.

Definition wellFormedQuestion (q : QuestionData) : Prop :=
  isBlank (Pregunta q) = false
  ∧ isBlank (Opción_correcta_1 q) = false
  ∧ (∃ text, Explicación q = Some text)
  ∧ id q ≠ [].

End ServiceSpec.

(** ** Sample data *)

Module Samples.

(** A question whose fields hold commas and double quotes. *)
Definition quoted : QuestionData :=
  {| id := js "q-1";
     Pregunta := jsq "What is 'x', exactly?";
     Opción_correcta_1 := js "yes";
     Opción_Correcta_2 := None;
     Opción_Correcta_3 := Some [];
     Opción_Incorrecta_1 := Some (js "no, never");
     Opción_Incorrecta_2 := None;
     Opción_Incorrecta_3 := None;
     Explicación := Some (jsq "say 'a' twice") |}.

Definition plain (i p c : string) : QuestionData :=
  {| id := js i;
     Pregunta := js p;
     Opción_correcta_1 := js c;
     Opción_Correcta_2 := None;
     Opción_Correcta_3 := None;
     Opción_Incorrecta_1 := None;
     Opción_Incorrecta_2 := None;
     Opción_Incorrecta_3 := None;
     Explicación := Some [] |}.

(** A queue of three requests, the second already completed. *)
Definition request (i p : string) (st : RequestStatus) : Request.t :=
  {| Request.id := js i;
     Request.prompt := js p;
     Request.status := st;
     Request.errorDetails := None;
     Request.jsonCorrectionAttempts := None;
     Request.questionsGeneratedCount := None |}.

Definition queue : Queue.AppState :=
  {| Queue.requests :=
       [ request "req-1" "ten questions on cells" Pending;
         request "req-2" "five on mitosis" Completed;
         request "req-3" "three on enzymes" Error ];
     Queue.generatedQuestions := [plain "q-1" "What is a cell?" "A unit of life"];
     Queue.isProcessing := false;
     Queue.globalError := None;
     Queue.generateCalls := 0;
     Queue.history := [] |}.

(** A generator whose first call throws and whose later calls return one
    question, and one that always throws. *)
Definition flakyGenerate (call : nat) (r : Request.t)
    (existingQuestionsCsv lastOverallAttemptError : option jsstring)
    : JsError + (list QuestionData * nat) :=
  match call with
  | O => inl (newError (js "network down"))
  | S _ => inr ([plain "q-1" "What is a cell?" "The unit of life";
                 plain "gen-1" "What is DNA?" "A nucleic acid"], 1%nat)
  end.

Definition failingGenerate (call : nat) (r : Request.t)
    (existingQuestionsCsv lastOverallAttemptError : option jsstring)
    : JsError + (list QuestionData * nat) :=
  inl (newError (js "quota exceeded")).

(** A stream of one chunk whose question holds an escaped quote. *)
Definition escapedChunk : option jsstring :=
  Some (jsq "[{'Pregunta':'Say \'hi\'','Opción correcta 1':'ok'}]").

(** An engine for running the service: the model of [JSON.parse], a model
    that answers the correction requests from a list, and fixed texts for
    the clock and the random number. *)
Definition engine (responses : list (JsError + jsstring)) : Service.Engine :=
  {| Service.JSON_parse := JSONModel.parse;
     Service.generateContent :=
       fun n _ => nth n responses (inl (newError (js "request failed")));
     Service.substringTypeError :=
       fun _ => js "TypeError: itemPregunta.substring is not a function";
     Service.numberIsFalsy :=
       fun lexeme => forallb (fun c => (c =? 48) || (c =? 46) || (c =? 45)) lexeme;
     Service.Number_toString := fun lexeme => lexeme;
     Service.Date_now := fun _ => js "1700000000000";
     Service.Math_random_base36 := fun _ => js "0.4fzyo82mvyr" |}.

Definition streamOf (text : jsstring) : Service.StreamResponse :=
  {| Service.chunks := [Some text]; Service.failure := None |}.

(** A model that answers an empty array with a space between the
    brackets, to the initial request and to every correction request. *)
Definition spacedEmptyArray : jsstring := js "[ ]".

Definition spacedEngine : Service.Engine :=
  engine (repeat (inr spacedEmptyArray) 4).

(** A model whose first answer lacks a field and whose corrected answer is
    well formed. *)
Definition faultyAnswer : jsstring :=
  jsq "[{'Pregunta': 'What is a cell?'}]".

Definition correctedAnswer : jsstring :=
  jsq "[{'Pregunta': 'What is a cell?', 'Opción correcta 1': 'The unit of life', 'Explicación': null}, {'id': 'q-7', 'Pregunta': 'What is DNA?', 'Opción correcta 1': 'A nucleic acid', 'Explicación': 'It stores genes.'}]".

Definition correctingEngine : Service.Engine :=
  engine [inr correctedAnswer].

End Samples.

(** * Properties *)

Example js_header_Explicacion :
  js "Explicación" = [69; 120; 112; 108; 105; 99; 97; 99; 105; 243; 110].
Proof. reflexivity. Qed.

(** ** CSV export and import *)

Section CsvFacts.

Lemma includes_false (s : jsstring) (c : N) :
  JS.includes s c = false ↔ c ∉ s.
Proof.
  unfold JS.includes. induction s as [|x s IH]; simpl.
  - split; [intros _; apply not_elem_of_nil | reflexivity].
  - rewrite orb_false_iff, IH, not_elem_of_cons.
    split; intros [H1 H2]; split; auto.
    + intros ->. rewrite N.eqb_refl in H1. discriminate.
    + destruct (N.eqb_spec c x); congruence.
Qed.

Lemma includes_true (s : jsstring) (c : N) :
  JS.includes s c = true ↔ c ∈ s.
Proof.
  destruct (JS.includes s c) eqn:E.
  - split; [intros _ | reflexivity].
    destruct (decide (c ∈ s)) as [Hin|Hn]; [exact Hin|].
    apply includes_false in Hn. congruence.
  - apply includes_false in E. split; [discriminate | contradiction].
Qed.

Lemma needsQuoting_includes (f : jsstring) :
  JS.includes f COMMA || JS.includes f DQUOTE || JS.includes f NEWLINE = true
  ↔ CsvSpec.needsQuoting f.
Proof.
  unfold CsvSpec.needsQuoting.
  rewrite !orb_true_iff, !includes_true. tauto.
Qed.

Lemma doubleQuotes_spec (f : jsstring) :
  JS.doubleQuotes f =
  flat_map (fun c => if decide (c = DQUOTE) then [DQUOTE; DQUOTE] else [c]) f.
Proof.
  unfold JS.doubleQuotes. induction f as [|c f IH]; simpl; [reflexivity|].
  rewrite IH. destruct (N.eqb_spec c DQUOTE), (decide (c = DQUOTE));
    congruence.
Qed.

Lemma escapeCsvField_spec (v : option jsstring) :
  escapeCsvField v = CsvSpec.field v.
Proof.
  destruct v as [f|]; [|reflexivity].
  destruct f as [|c f].
  - simpl. destruct (decide (CsvSpec.needsQuoting [])) as [H|H]; [|reflexivity].
    exfalso. destruct H as [H|[H|H]]; inversion H.
  - unfold escapeCsvField, CsvSpec.field.
    destruct (decide (CsvSpec.needsQuoting (c :: f))) as [H|H].
    + apply needsQuoting_includes in H. rewrite H.
      rewrite doubleQuotes_spec. reflexivity.
    + destruct (JS.includes (c :: f) COMMA || JS.includes (c :: f) DQUOTE
                || JS.includes (c :: f) NEWLINE) eqn:E; [|reflexivity].
      apply needsQuoting_includes in E. contradiction.
Qed.

Lemma dataRow_spec (q : QuestionData) : dataRow q = CsvSpec.row q.
Proof.
  unfold dataRow, CsvSpec.row, rowFields. simpl map.
  rewrite <- !escapeCsvField_spec. simpl. trivial.
Qed.

Lemma join_newline_cons (h : jsstring) (rows : list jsstring) :
  JS.join [NEWLINE] (h :: rows) = h ++ flat_map (fun r => NEWLINE :: r) rows.
Proof.
  revert h. induction rows as [|r rows IH]; intros h.
  - simpl. rewrite app_nil_r. reflexivity.
  - change (JS.join [NEWLINE] (h :: r :: rows))
      with (h ++ [NEWLINE] ++ JS.join [NEWLINE] (r :: rows)).
    rewrite IH. simpl. reflexivity.
Qed.

End CsvFacts.

(** C7. For every list of questions, [generateCsvString] is the text the
    specification describes: the header names joined by commas as the first
    line, then one row per question in list order, each row holding the
    eight fields, a field being wrapped in double quotes with its inner
    double quotes doubled exactly when it contains a comma, a double quote
    or a newline, and an undefined, null or empty field being empty. *)
Theorem generateCsvString_meets_spec (questions : list QuestionData) :
  generateCsvString questions = CsvSpec.csv questions
  ∧ CsvSpec.header = JS.join [COMMA] CSV_HEADERS
  ∧ length (dataRows questions) = length questions
  ∧ NEWLINE ∉ CsvSpec.header.
Proof.
  split; [|split; [reflexivity|split]].
  - unfold generateCsvString, CsvSpec.csv. rewrite join_newline_cons.
    f_equal. unfold dataRows. induction questions as [|q qs IH]; simpl.
    + reflexivity.
    + rewrite dataRow_spec, IH. reflexivity.
  - unfold dataRows. apply length_map.
  - apply includes_false. vm_compute. reflexivity.
Qed.

Section CsvRoundTrip.

Lemma loop_plain (f rest : jsstring) fields cur q :
  DQUOTE ∉ f → COMMA ∉ f →
  parseCsvLine_loop (f ++ rest) fields cur q
  = parseCsvLine_loop rest fields (cur ++ f) q.
Proof.
  revert cur. induction f as [|c f IH]; intros cur Hq Hc.
  - simpl. rewrite app_nil_r. reflexivity.
  - apply not_elem_of_cons in Hq as [Hq1 Hq2].
    apply not_elem_of_cons in Hc as [Hc1 Hc2].
    simpl.
    destruct (N.eqb_spec c DQUOTE) as [->|_]; [congruence|].
    destruct (N.eqb_spec c COMMA) as [->|_]; [congruence|].
    simpl. rewrite IH by assumption.
    rewrite <- app_assoc. reflexivity.
Qed.

Lemma loop_quoted (f rest : jsstring) fields cur :
  JS.startsWith rest DQUOTE = false →
  parseCsvLine_loop (JS.doubleQuotes f ++ DQUOTE :: rest) fields cur true
  = parseCsvLine_loop rest fields (cur ++ f) false.
Proof.
  intros Hrest. revert cur. induction f as [|c f IH]; intros cur.
  - simpl. rewrite app_nil_r.
    destruct rest as [|d rest]; [reflexivity|].
    simpl in Hrest. rewrite Hrest. reflexivity.
  - unfold JS.doubleQuotes. simpl flat_map.
    fold (JS.doubleQuotes f).
    destruct (N.eqb_spec c DQUOTE) as [->|Hne].
    + simpl. rewrite IH, <- app_assoc. reflexivity.
    + simpl app.
      cbn [parseCsvLine_loop].
      destruct (N.eqb_spec c DQUOTE) as [|_]; [contradiction|].
      rewrite andb_false_r.
      rewrite IH, <- app_assoc. reflexivity.
Qed.

Lemma loop_field (v : option jsstring) (rest : jsstring) fields cur :
  JS.startsWith rest DQUOTE = false →
  parseCsvLine_loop (escapeCsvField v ++ rest) fields cur false
  = parseCsvLine_loop rest fields (cur ++ CsvSpec.value v) false.
Proof.
  intros Hrest. destruct v as [f|]; simpl CsvSpec.value.
  2:{ simpl. rewrite app_nil_r. reflexivity. }
  destruct f as [|c f].
  { simpl. rewrite app_nil_r. reflexivity. }
  unfold escapeCsvField.
  destruct (JS.includes (c :: f) COMMA || JS.includes (c :: f) DQUOTE
            || JS.includes (c :: f) NEWLINE) eqn:E.
  - rewrite <- !app_assoc. change ([DQUOTE] ++ ?x) with (DQUOTE :: x).
    cbn [parseCsvLine_loop app].
    change (DQUOTE =? DQUOTE) with true. cbv iota.
    destruct (JS.doubleQuotes (c :: f) ++ DQUOTE :: rest) as [|d l] eqn:El.
    + destruct (JS.doubleQuotes (c :: f)); discriminate.
    + rewrite andb_false_l. simpl negb. rewrite <- El.
      apply loop_quoted. exact Hrest.
  - apply orb_false_iff in E as [E E3].
    apply orb_false_iff in E as [E1 E2].
    apply loop_plain; apply includes_false; assumption.
Qed.

Lemma loop_row (vs : list (option jsstring)) fields :
  vs ≠ [] →
  parseCsvLine_loop (JS.join [COMMA] (map escapeCsvField vs)) fields [] false
  = fields ++ map CsvSpec.value vs.
Proof.
  revert fields. induction vs as [|v vs IH]; intros fields Hne; [congruence|].
  destruct vs as [|v' vs].
  - simpl map. simpl JS.join.
    rewrite <- (app_nil_r (escapeCsvField v)).
    rewrite loop_field by reflexivity. reflexivity.
  - change (JS.join [COMMA] (map escapeCsvField (v :: v' :: vs)))
      with (escapeCsvField v ++
            COMMA :: JS.join [COMMA] (map escapeCsvField (v' :: vs))).
    rewrite loop_field by reflexivity.
    cbn [parseCsvLine_loop]. change (COMMA =? DQUOTE) with false.
    change (COMMA =? COMMA) with true. cbv iota. simpl andb. cbv iota.
    rewrite IH by discriminate.
    rewrite <- app_assoc. reflexivity.
Qed.

Lemma unquoteOrTrim_plain (v : option jsstring) :
  CsvSpec.plainField v → unquoteOrTrim (CsvSpec.value v) = CsvSpec.value v.
Proof.
  destruct v as [f|]; simpl; [|intros _; reflexivity].
  intros (_ & Htrim & Hq). unfold unquoteOrTrim.
  destruct (JS.startsWith f DQUOTE) eqn:E1, (JS.endsWith f DQUOTE) eqn:E2;
    simpl; try exact Htrim.
  exfalso. apply Hq. split; reflexivity.
Qed.

Lemma parseCsvLineRobust_row (vs : list (option jsstring)) :
  vs ≠ [] → Forall CsvSpec.plainField vs →
  parseCsvLineRobust (JS.join [COMMA] (map escapeCsvField vs))
  = map CsvSpec.value vs.
Proof.
  intros Hne Hall. unfold parseCsvLineRobust.
  rewrite loop_row by exact Hne. simpl app.
  induction Hall as [|v vs Hv Hvs IH]; [reflexivity|].
  simpl. rewrite unquoteOrTrim_plain by exact Hv. f_equal.
  destruct vs as [|v' vs]; [reflexivity|]. apply IH. discriminate.
Qed.

End CsvRoundTrip.

(** C9. For every question list in which each field value contains no
    newline, equals its own trimmed form and does not both start and end
    with a double quote, applying [parseCsvLineRobust] to each data row
    produced by [generateCsvString] recovers the eight field values of each
    question, an undefined field being recovered as the empty string. *)
Theorem parseCsvLineRobust_recovers_rows (questions : list QuestionData) :
  Forall (fun q => Forall CsvSpec.plainField (rowFields q)) questions →
  map parseCsvLineRobust (dataRows questions)
  = map (fun q => map CsvSpec.value (rowFields q)) questions.
Proof.
  intros Hall. unfold dataRows. rewrite map_map.
  induction Hall as [|q qs Hq Hqs IH]; [reflexivity|].
  simpl. rewrite IH. f_equal.
  unfold dataRow. apply parseCsvLineRobust_row; [discriminate | exact Hq].
Qed.

(** ** The model of [JSON.parse] on sample texts *)

Example parse_sample_object :
  JSONModel.parse (jsq "[ {'Pregunta': 'a\u00e9\nb', 'n': -1.5e3, 'ok': true, 'xs': [null, []]} ]")
  = inr (JArray [JObject [ (js "Pregunta", JString [97; 233; 10; 98]);
                           (js "n", JNumber (js "-1.5e3"));
                           (js "ok", JBool true);
                           (js "xs", JArray [JNull; JArray []]) ]]).
Proof. vm_compute. reflexivity. Qed.

Example parse_sample_rejects :
  JSONModel.parse (jsq "[{'Pregunta': 'a',}]") = inl JSONModel.syntaxError
  ∧ JSONModel.parse (jsq "[01]") = inl JSONModel.syntaxError
  ∧ JSONModel.parse (jsq "[1] x") = inl JSONModel.syntaxError
  ∧ JSONModel.parse (jsq "") = inl JSONModel.syntaxError.
Proof. vm_compute. repeat split. Qed.

(** ** The live preview on sample streams *)

Example preview_sample_partial :
  Preview.latestPreguntaContent (jsq "[{'id': null, 'Pregunta' : 'What is") = js "What is".
Proof. vm_compute. reflexivity. Qed.

Example preview_sample_closed :
  Preview.scanLatestPregunta (jsq "{'Pregunta':'ab','x':1}") = (js "ab", [11; 12; 13; 14; 15]%nat).
Proof. vm_compute. reflexivity. Qed.

(** ** Merging a batch into the generated questions *)

Section MergeFacts.

Import MergeSpec.

Lemma find_id_some (batch : list QuestionData) (q nq : QuestionData) :
  List.find (fun nq => bool_decide (id nq = id q)) batch = Some nq →
  nq ∈ batch ∧ id nq = id q.
Proof.
  intros H. apply find_some in H as [Hin Hid].
  split; [apply list_elem_of_In; exact Hin|].
  apply bool_decide_eq_true in Hid. exact Hid.
Qed.

Lemma find_id_none (batch : list QuestionData) (q : QuestionData) :
  List.find (fun nq => bool_decide (id nq = id q)) batch = None ↔
  id q ∉ ids batch.
Proof.
  unfold ids. induction batch as [|b batch IH]; simpl.
  - split; [intros _; apply not_elem_of_nil | reflexivity].
  - rewrite not_elem_of_cons. destruct (bool_decide_reflect (id b = id q)) as [He|Hne].
    + split; [discriminate | intros [Hc _]; congruence].
    + rewrite IH. split; [intros H; split; [congruence | exact H] | tauto].
Qed.

Lemma batchVersion_id (batch : list QuestionData) (q : QuestionData) :
  id (batchVersion batch q) = id q.
Proof.
  unfold batchVersion.
  destruct (List.find _ batch) as [nq|] eqn:E; [|reflexivity].
  apply find_id_some in E. tauto.
Qed.

Lemma rewriteExisting_list (prev batch : list QuestionData) (P : gset jsstring) :
  (rewriteExisting prev batch P).1 = map (batchVersion batch) prev.
Proof.
  revert P. induction prev as [|q prev IH]; intros P; simpl; [reflexivity|].
  unfold batchVersion at 1.
  destruct (List.find _ batch) as [nq|] eqn:E.
  - specialize (IH ({[ id nq ]} ∪ P)).
    destruct (rewriteExisting prev batch _) as [l P']. simpl in *. congruence.
  - specialize (IH P).
    destruct (rewriteExisting prev batch P) as [l P']. simpl in *. congruence.
Qed.

Lemma rewriteExisting_processed (prev batch : list QuestionData)
    (P : gset jsstring) (x : jsstring) :
  x ∈ (rewriteExisting prev batch P).2 → x ∈ P ∨ x ∈ ids prev.
Proof.
  revert P. induction prev as [|q prev IH]; intros P; simpl; [tauto|].
  destruct (List.find _ batch) as [nq|] eqn:E.
  - specialize (IH ({[ id nq ]} ∪ P)).
    destruct (rewriteExisting prev batch _) as [l P']. simpl in *.
    intros H. apply IH in H as [H|H].
    + apply elem_of_union in H as [H|H]; [|tauto].
      apply elem_of_singleton in H. subst x. right.
      apply find_id_some in E as [_ ->]. apply list_elem_of_here.
    + right. apply list_elem_of_further. exact H.
  - specialize (IH P).
    destruct (rewriteExisting prev batch P) as [l P']. simpl in *.
    intros H. apply IH in H as [H|H]; [tauto|].
    right. apply list_elem_of_further. exact H.
Qed.

Lemma existsb_id (l : list QuestionData) (x : jsstring) :
  existsb (fun uq => bool_decide (id uq = x)) l = true ↔ x ∈ ids l.
Proof.
  unfold ids. induction l as [|q l IH]; simpl.
  - split; [discriminate | intros H; inversion H].
  - rewrite orb_true_iff, IH, bool_decide_eq_true, elem_of_cons.
    split; intros [H|H]; auto.
Qed.

(** What [appendNew] adds: batch questions, with pairwise different ids
    that occur neither in the list so far nor among the processed ids. *)
Lemma appendNew_appends (batch : list QuestionData) (P : gset jsstring)
    (ul : list QuestionData) :
  ∃ appended,
    appendNew batch P ul = ul ++ appended
    ∧ (∀ q, q ∈ appended → q ∈ batch ∧ (id q ∉ ids ul) ∧ (id q ∉ P))
    ∧ NoDup (ids appended)
    ∧ (∀ q, q ∈ batch → id q ∈ P ∨ id q ∈ ids ul ∨ id q ∈ ids appended).
Proof.
  revert ul. induction batch as [|nq batch IH]; intros ul; simpl.
  - exists []. rewrite app_nil_r. repeat split.
    + inversion H.
    + inversion H.
    + inversion H.
    + constructor.
    + intros q H. inversion H.
  - destruct (decide (id nq ∈ P)) as [HP|HP].
    { destruct (IH ul) as (app & -> & Hin & Hnd & Hall).
      exists app. repeat split; try apply Hin; try assumption.
      - apply list_elem_of_further. apply Hin. assumption.
      - intros q Hq. apply elem_of_cons in Hq as [->|Hq]; [tauto|].
        apply Hall. exact Hq. }
    destruct (existsb _ ul) eqn:Eex.
    { apply existsb_id in Eex.
      destruct (IH ul) as (app & -> & Hin & Hnd & Hall).
      exists app. repeat split; try apply Hin; try assumption.
      - apply list_elem_of_further. apply Hin. assumption.
      - intros q Hq. apply elem_of_cons in Hq as [->|Hq]; [tauto|].
        apply Hall. exact Hq. }
    assert (Hnew : id nq ∉ ids ul).
    { intros Hc. apply existsb_id in Hc. congruence. }
    destruct (IH (ul ++ [nq])) as (app & -> & Hin & Hnd & Hall).
    exists (nq :: app). rewrite <- app_assoc. simpl.
    assert (Hids : ∀ x, x ∈ ids (ul ++ [nq]) ↔ x ∈ ids ul ∨ x = id nq).
    { intros x. unfold ids. rewrite map_app, elem_of_app. simpl.
      rewrite list_elem_of_singleton. reflexivity. }
    repeat split.
    + apply elem_of_cons in H as [->|H]; [apply list_elem_of_here|].
      apply list_elem_of_further. apply Hin. exact H.
    + apply elem_of_cons in H as [->|H]; [exact Hnew|].
      apply Hin in H as (_ & H & _). intros Hc. apply H, Hids. tauto.
    + apply elem_of_cons in H as [->|H]; [exact HP|].
      apply Hin in H. tauto.
    + unfold ids. simpl. constructor; [|exact Hnd].
      intros Hc. apply list_elem_of_fmap in Hc as (q & Hq1 & Hq2).
      apply Hin in Hq2 as (_ & Hq2 & _). apply Hq2, Hids. right.
      symmetry. exact Hq1.
    + intros q Hq. apply elem_of_cons in Hq as [->|Hq].
      * right. right. apply list_elem_of_here.
      * destruct (Hall q Hq) as [H|[H|H]]; [tauto| |].
        -- apply Hids in H as [H|H]; [tauto|]. right. right.
           unfold ids. simpl. rewrite H. apply list_elem_of_here.
        -- right. right. apply list_elem_of_further. exact H.
Qed.

Lemma ids_batchVersion (prev batch : list QuestionData) :
  ids (map (batchVersion batch) prev) = ids prev.
Proof.
  unfold ids. rewrite map_map. apply map_ext. intros q.
  apply batchVersion_id.
Qed.

Lemma mergeQuestions_shape (prev batch : list QuestionData) :
  ∃ appended,
    mergeQuestions prev batch = map (batchVersion batch) prev ++ appended
    ∧ (∀ q, q ∈ appended → q ∈ batch ∧ (id q ∉ ids prev))
    ∧ NoDup (ids appended)
    ∧ (∀ q, q ∈ batch → id q ∈ ids prev ∨ id q ∈ ids appended).
Proof.
  unfold mergeQuestions.
  pose proof (rewriteExisting_list prev batch ∅) as Hl.
  pose proof (rewriteExisting_processed prev batch ∅) as HP.
  destruct (rewriteExisting prev batch ∅) as [ul P]. simpl in Hl, HP. subst ul.
  destruct (appendNew_appends batch P (map (batchVersion batch) prev))
    as (app & -> & Hin & Hnd & Hall).
  rewrite ids_batchVersion in *.
  exists app. repeat split; try assumption.
  - apply Hin. assumption.
  - apply Hin. assumption.
  - intros q Hq. destruct (Hall q Hq) as [H|[H|H]]; auto.
    apply HP in H as [H|H]; [|auto]. apply elem_of_empty in H. contradiction.
Qed.

Lemma occurrences_app (x : jsstring) (l1 l2 : list QuestionData) :
  occurrences x (l1 ++ l2) = (occurrences x l1 + occurrences x l2)%nat.
Proof. unfold occurrences. rewrite filter_app, length_app. reflexivity. Qed.

Lemma occurrences_batchVersion (x : jsstring) (prev batch : list QuestionData) :
  occurrences x (map (batchVersion batch) prev) = occurrences x prev.
Proof.
  unfold occurrences. induction prev as [|q prev IH]; [reflexivity|].
  simpl map. rewrite !filter_cons, batchVersion_id.
  destruct (decide (id q = x)); simpl; rewrite IH; reflexivity.
Qed.

Lemma occurrences_0 (x : jsstring) (l : list QuestionData) :
  x ∉ ids l → occurrences x l = 0%nat.
Proof.
  unfold occurrences, ids. induction l as [|q l IH]; [reflexivity|].
  simpl. rewrite not_elem_of_cons. intros [H1 H2].
  rewrite filter_cons. destruct (decide (id q = x)); [congruence|].
  apply IH. exact H2.
Qed.

Lemma occurrences_NoDup (x : jsstring) (l : list QuestionData) :
  NoDup (ids l) → (occurrences x l ≤ 1)%nat.
Proof.
  unfold occurrences, ids. induction l as [|q l IH]; simpl; [lia|].
  intros Hnd. apply NoDup_cons in Hnd as [Hq Hnd].
  rewrite filter_cons. destruct (decide (id q = x)) as [<-|Hne].
  - simpl. fold (occurrences (id q) l). rewrite occurrences_0 by exact Hq. lia.
  - apply IH. exact Hnd.
Qed.

End MergeFacts.

(** C10. When a batch returned by [generateQuestionsFromGemini] is merged
    into the generated questions: every earlier question whose id does not
    occur among the batch's ids is unchanged and keeps its position; an
    earlier question whose id occurs in the batch is replaced, at its
    position, by the (first) batch question of that id; whatever follows the
    earlier positions is a batch question whose id occurs nowhere else in
    the result; so no id occurs more often than before unless it was absent
    and then it occurs at most once. *)
Theorem mergeQuestions_frame (prev batch : list QuestionData) :
  let merged := mergeQuestions prev batch in
  (∀ i q, prev !! i = Some q → id q ∉ MergeSpec.ids batch →
          merged !! i = Some q)
  ∧ (∀ i q, prev !! i = Some q → id q ∈ MergeSpec.ids batch →
            ∃ nq, List.find (fun nq => bool_decide (id nq = id q)) batch = Some nq
                  ∧ nq ∈ batch ∧ id nq = id q ∧ merged !! i = Some nq)
  ∧ (∀ i nq, (length prev ≤ i)%nat → merged !! i = Some nq →
             nq ∈ batch ∧ (id nq ∉ MergeSpec.ids prev)
             ∧ MergeSpec.occurrences (id nq) merged = 1%nat)
  ∧ (∀ x, x ∈ MergeSpec.ids prev →
          MergeSpec.occurrences x merged = MergeSpec.occurrences x prev)
  ∧ (∀ x, x ∉ MergeSpec.ids prev → (MergeSpec.occurrences x merged ≤ 1)%nat)
  ∧ (∀ nq, nq ∈ batch → id nq ∈ MergeSpec.ids merged).
Proof.
  intros merged.
  destruct (mergeQuestions_shape prev batch) as (app & Hm & Hin & Hnd & Hall).
  fold merged in Hm.
  assert (Hpos : ∀ i q, prev !! i = Some q →
                        merged !! i = Some (MergeSpec.batchVersion batch q)).
  { intros i q Hi. rewrite Hm. rewrite lookup_app_l.
    - rewrite list_lookup_fmap, Hi. reflexivity.
    - rewrite length_map. apply lookup_lt_Some in Hi. exact Hi. }
  assert (Hocc : ∀ x, MergeSpec.occurrences x merged
                      = (MergeSpec.occurrences x prev + MergeSpec.occurrences x app)%nat).
  { intros x. rewrite Hm, occurrences_app, occurrences_batchVersion. reflexivity. }
  assert (Happ0 : ∀ x, x ∈ MergeSpec.ids prev → MergeSpec.occurrences x app = 0%nat).
  { intros x Hx. apply occurrences_0. intros Hc.
    apply list_elem_of_fmap in Hc as (q & -> & Hq). apply Hin in Hq. tauto. }
  repeat split.
  - intros i q Hi Hq. rewrite (Hpos i q Hi). f_equal.
    unfold MergeSpec.batchVersion. apply find_id_none in Hq. rewrite Hq. reflexivity.
  - intros i q Hi Hq.
    destruct (List.find (fun nq => bool_decide (id nq = id q)) batch) as [nq|] eqn:E.
    + exists nq. destruct (find_id_some _ _ _ E) as [H1 H2].
      repeat split; try assumption.
      rewrite (Hpos i q Hi). unfold MergeSpec.batchVersion. rewrite E. reflexivity.
    + apply find_id_none in E. contradiction.
  - rewrite Hm in H0. rewrite lookup_app_r in H0 by (rewrite length_map; exact H).
    apply list_elem_of_lookup_2 in H0. apply Hin in H0. tauto.
  - rewrite Hm in H0. rewrite lookup_app_r in H0 by (rewrite length_map; exact H).
    apply list_elem_of_lookup_2 in H0. apply Hin in H0. tauto.
  - rewrite Hm in H0. rewrite lookup_app_r in H0 by (rewrite length_map; exact H).
    apply list_elem_of_lookup_2 in H0.
    rewrite Hocc. destruct (Hin nq H0) as [_ Hnp].
    rewrite (occurrences_0 _ prev Hnp). simpl.
    pose proof (occurrences_NoDup (id nq) app Hnd) as Hle.
    assert (MergeSpec.occurrences (id nq) app ≠ 0%nat); [|lia].
    unfold MergeSpec.occurrences. intros Hc. apply length_zero_iff_nil in Hc.
    assert (Hf : nq ∈ filter (fun q => id q = id nq) app).
    { apply list_elem_of_filter. split; [reflexivity | exact H0]. }
    rewrite Hc in Hf. inversion Hf.
  - intros x Hx. rewrite Hocc, (Happ0 x Hx). lia.
  - intros x Hx. rewrite Hocc, (occurrences_0 _ prev Hx). simpl.
    apply occurrences_NoDup. exact Hnd.
  - intros nq Hq. rewrite Hm. unfold MergeSpec.ids.
    rewrite map_app, elem_of_app. fold (MergeSpec.ids app).
    fold (MergeSpec.ids (map (MergeSpec.batchVersion batch) prev)).
    rewrite ids_batchVersion. apply Hall. exact Hq.
Qed.

Ltac plain_field :=
  simpl;
  first [ exact I
        | split; [ apply includes_false; reflexivity
                 | split; [ reflexivity | intros [? ?]; discriminate ] ] ].

Ltac each_field :=
  repeat match goal with |- Forall _ _ => constructor end.

Lemma parseCsvLineRobust_recovers_rows_witness :
  Forall (fun q => Forall CsvSpec.plainField (rowFields q)) [Samples.quoted]
  ∧ map parseCsvLineRobust (dataRows [Samples.quoted])
    = [[ jsq "What is 'x', exactly?"; js "yes"; []; []; js "no, never"; []; [];
         jsq "say 'a' twice" ]].
Proof.
  assert (H : Forall (fun q => Forall CsvSpec.plainField (rowFields q))
                     [Samples.quoted]).
  { each_field; plain_field. }
  split; [exact H|].
  exact (parseCsvLineRobust_recovers_rows [Samples.quoted] H).
Defined.

Example dataRow_sample :
  dataRow Samples.quoted
  = [DQUOTE] ++ js "What is " ++ [DQUOTE; DQUOTE] ++ js "x" ++ [DQUOTE; DQUOTE]
    ++ js ", exactly?" ++ [DQUOTE] ++ js ",yes,,," ++ [DQUOTE] ++ js "no, never"
    ++ [DQUOTE] ++ js ",,," ++ [DQUOTE] ++ js "say " ++ [DQUOTE; DQUOTE] ++ js "a"
    ++ [DQUOTE; DQUOTE] ++ js " twice" ++ [DQUOTE].
Proof. vm_compute. reflexivity. Qed.

(** ** The request queue *)

Section QueueFacts.

Import Queue QueueSpec.

Variable generate :
  nat → Request.t → option jsstring → option jsstring →
  JsError + (list QuestionData * nat).

Lemma attemptLoop_S fuel r csv v s :
  attemptLoop generate (S fuel) r csv v s
  = if (overallAttempt v <? MAX_OVERALL_REQUEST_ATTEMPTS)%nat
       && negb (successInRequest v)
    then attemptLoop generate fuel r csv (attempt generate r csv v s).1
                     (attempt generate r csv v s).2
    else Some (v, s).
Proof.
  simpl. destruct (attempt generate r csv v s). reflexivity.
Qed.

Lemma updateById_twice (target : jsstring) (f g : Request.t → Request.t)
    (l : list Request.t) :
  (∀ r, Request.id (g r) = Request.id r) →
  updateById target f (updateById target g l)
  = updateById target (fun r => f (g r)) l.
Proof.
  intros Hid. unfold updateById. rewrite map_map. apply map_ext. intros r.
  destruct (decide (Request.id r = target)) as [He|Hne].
  - rewrite Hid. destruct (decide (Request.id r = target)); [reflexivity|contradiction].
  - destruct (decide (Request.id r = target)); [contradiction|reflexivity].
Qed.

Lemma updateById_ids (target : jsstring) (f : Request.t → Request.t)
    (l : list Request.t) :
  (∀ r, Request.id (f r) = Request.id r) →
  map Request.id (updateById target f l) = map Request.id l.
Proof.
  intros Hid. unfold updateById. rewrite map_map. apply map_ext. intros r.
  destruct (decide (Request.id r = target)); [apply Hid | reflexivity].
Qed.

Lemma completed_after_processing (target : jsstring) (n k : nat)
    (l : list Request.t) :
  updateById target (asCompleted n k) (updateById target asProcessing l)
  = updateById target (asCompleted n k) l.
Proof. rewrite updateById_twice; reflexivity. Qed.

Lemma error_after_processing (target msg : jsstring) (n : nat)
    (l : list Request.t) :
  updateById target (asError msg n) (updateById target asProcessing l)
  = updateById target (asError msg n) l.
Proof. rewrite updateById_twice; reflexivity. Qed.

Lemma lastErrorOf_message (e : JsError) (c : N) (m : jsstring) :
  message e = Some (c :: m) → lastErrorOf e = c :: m.
Proof. unfold lastErrorOf. intros ->. reflexivity. Qed.

(** The three ways the processing of one request can go, by the answers of
    the (at most two) calls. *)
Lemma processRequest_runs (fuel : nat) (gq0 : list QuestionData)
    (r : Request.t) (s : AppState) :
  (MAX_OVERALL_REQUEST_ATTEMPTS < fuel)%nat →
  let target := Request.id r in
  let csv := existingQuestionsCsvOf gq0 in
  let s0 := record (StatusSet target Processing)
              (setRequests (updateById target asProcessing) s) in
  let begun k st := countGeneration (record (GenerationBegins target k) st) in
  processRequest generate fuel gq0 r s =
  Some
    match generate (generateCalls s) r csv None with
    | inr (qs, n) => attemptReturned target qs n initialAttempts (begun 0%nat s0)
    | inl e1 =>
        let '(v1, s1) := attemptThrew target e1 initialAttempts (begun 0%nat s0) in
        match generate (S (generateCalls s)) r csv (Some (lastErrorOf e1)) with
        | inr (qs, n) => attemptReturned target qs n v1 (begun 1%nat s1)
        | inl e2 => attemptThrew target e2 v1 (begun 1%nat s1)
        end
    end.
Proof.
  intros Hfuel target csv s0 begun.
  unfold MAX_OVERALL_REQUEST_ATTEMPTS in Hfuel.
  destruct fuel as [|[|[|fuel]]]; try lia.
  unfold processRequest. fold target csv s0.
  rewrite attemptLoop_S. simpl andb. cbv iota.
  unfold attempt at 1 2. fold target.
  change (generateCalls s0) with (generateCalls s).
  change (lastOverallAttemptError initialAttempts) with (@None jsstring).
  destruct (generate (generateCalls s) r csv None) as [e1|[qs n]] eqn:E1.
  - rewrite attemptLoop_S. simpl andb. cbv iota.
    unfold attempt at 1 2. fold target. simpl generateCalls.
    simpl lastOverallAttemptError.
    destruct (generate (S (generateCalls s)) r csv (Some (lastErrorOf e1)))
      as [e2|[qs n]] eqn:E2; rewrite attemptLoop_S; reflexivity.
  - rewrite attemptLoop_S. reflexivity.
Qed.


(** C2. For every request [processQueue] processes, the attempt loop ends
    after at most [MAX_OVERALL_REQUEST_ATTEMPTS] = 2 calls of
    [generateQuestionsFromGemini]. If the first call returns, the request
    is set to [Completed] and no second call is made; if it throws and the
    second returns, the request is set to [Completed]; if both throw, the
    request is set to [Error] and [errorDetails] holds the message of the
    last error (the text of the fallback when that error has no message or
    an empty one). *)
Theorem processRequest_bounded_attempts (fuel : nat)
    (generatedQuestions0 : list QuestionData) (r : Request.t) (s : AppState) :
  (MAX_OVERALL_REQUEST_ATTEMPTS < fuel)%nat →
  ∃ v s',
    processRequest generate fuel generatedQuestions0 r s = Some (v, s')
    ∧ generateCalls s' = (generateCalls s + overallAttempt v)%nat
    ∧ (1 ≤ overallAttempt v ≤ MAX_OVERALL_REQUEST_ATTEMPTS)%nat
    ∧ let csv := existingQuestionsCsvOf generatedQuestions0 in
      let c0 := generateCalls s in
      match generate c0 r csv None with
      | inr (qs, n) =>
          overallAttempt v = 1%nat
          ∧ successInRequest v = true
          ∧ requests s'
            = updateById (Request.id r) (asCompleted n (length qs)) (requests s)
      | inl e1 =>
          overallAttempt v = 2%nat
          ∧ match generate (S c0) r csv (Some (lastErrorOf e1)) with
            | inr (qs, n) =>
                successInRequest v = true
                ∧ requests s'
                  = updateById (Request.id r) (asCompleted n (length qs))
                               (requests s)
            | inl e2 =>
                successInRequest v = false
                ∧ requests s'
                  = updateById (Request.id r)
                      (asError (lastErrorOf e2) (totalAfter e1 e2)) (requests s)
                ∧ (∀ c m, message e2 = Some (c :: m) → lastErrorOf e2 = c :: m)
            end
      end.
Proof.
  intros Hfuel. rewrite (processRequest_runs _ _ _ _ Hfuel).
  cbv zeta.
  destruct (generate (generateCalls s) r _ None) as [e1|[qs n]].
  - destruct (generate (S (generateCalls s)) r _ (Some (lastErrorOf e1)))
      as [e2|[qs n]].
    + eexists _, _. split; [reflexivity|]. simpl.
      split; [lia|]. split; [unfold MAX_OVERALL_REQUEST_ATTEMPTS; lia|].
      split; [reflexivity|]. split; [reflexivity|].
      split; [|intros c m; apply lastErrorOf_message].
      rewrite error_after_processing. unfold totalAfter.
      destruct (sourceAttempts e2), (sourceAttempts e1); reflexivity.
    + eexists _, _. split; [reflexivity|]. simpl.
      split; [lia|]. split; [unfold MAX_OVERALL_REQUEST_ATTEMPTS; lia|].
      split; [reflexivity|]. split; [reflexivity|].
      apply completed_after_processing.
  - eexists _, _. split; [reflexivity|]. simpl.
    split; [lia|]. split; [unfold MAX_OVERALL_REQUEST_ATTEMPTS; lia|].
    split; [reflexivity|]. split; [reflexivity|].
    apply completed_after_processing.
Qed.

(** C5. If all overall attempts for a request fail, processing the request
    leaves the list of generated questions as it was and merges nothing;
    the [catch] path never writes the list: an attempt that does not
    succeed leaves it unchanged. *)
Theorem failed_request_keeps_questions (fuel : nat)
    (generatedQuestions0 : list QuestionData) (r : Request.t) (s : AppState)
    (e1 e2 : JsError) :
  (MAX_OVERALL_REQUEST_ATTEMPTS < fuel)%nat →
  generate (generateCalls s) r (existingQuestionsCsvOf generatedQuestions0) None
  = inl e1 →
  generate (S (generateCalls s)) r (existingQuestionsCsvOf generatedQuestions0)
           (Some (lastErrorOf e1))
  = inl e2 →
  (∃ v s',
     processRequest generate fuel generatedQuestions0 r s = Some (v, s')
     ∧ successInRequest v = false
     ∧ generatedQuestions s' = generatedQuestions s
     ∧ (∀ ev snap, (ev, snap) ∈ drop (length (history s)) (history s') →
                   ev ≠ QuestionsMerged (Request.id r)))
  ∧ (∀ target e v st,
       generatedQuestions (attemptThrew target e v st).2 = generatedQuestions st)
  ∧ (∀ csv v st,
       successInRequest (attempt generate r csv v st).1 = false →
       generatedQuestions (attempt generate r csv v st).2 = generatedQuestions st).
Proof.
  intros Hfuel E1 E2. split; [|split].
  - rewrite (processRequest_runs _ _ _ _ Hfuel). cbv zeta.
    rewrite E1. simpl. rewrite E2.
    eexists _, _. split; [reflexivity|]. simpl.
    split; [reflexivity|]. split; [reflexivity|].
    intros ev snap. rewrite <- !app_assoc, drop_app_length.
    simpl. rewrite !elem_of_cons. intros H.
    repeat (destruct H as [H|H]; [inversion H; discriminate|]).
    inversion H.
  - intros target e v st. unfold attemptThrew. simpl.
    destruct (overallAttempt v =? _)%nat; reflexivity.
  - intros csv v st. unfold attempt.
    destruct (generate (generateCalls st) r csv (lastOverallAttemptError v))
      as [e|[qs n]].
    + intros _. unfold attemptThrew. simpl.
      destruct (overallAttempt v =? _)%nat; reflexivity.
    + simpl. discriminate.
Qed.



Lemma processingCount_cons (ids : list jsstring) (r : Request.t)
    (l : list Request.t) :
  processingCount ids (r :: l)
  = ((if decide (Request.status r = Processing ∧ Request.id r ∈ ids)
      then 1 else 0) + processingCount ids l)%nat.
Proof.
  unfold processingCount. rewrite filter_cons.
  destruct (decide _); reflexivity.
Qed.

Lemma processingCount_quiet (ids : list jsstring) (l : list Request.t) :
  quiet ids l → processingCount ids l = 0%nat.
Proof.
  induction l as [|r l IH]; intros Hq; [reflexivity|].
  rewrite processingCount_cons.
  destruct (decide (Request.status r = Processing ∧ Request.id r ∈ ids))
    as [[H1 H2]|_].
  - exfalso. apply (Hq r); [apply list_elem_of_here | exact H2 | exact H1].
  - apply IH. intros x Hx. apply Hq. apply list_elem_of_further. exact Hx.
Qed.

Lemma updateById_absent (target : jsstring) (f : Request.t → Request.t)
    (l : list Request.t) :
  target ∉ map Request.id l → updateById target f l = l.
Proof.
  unfold updateById. induction l as [|r l IH]; intros Hn; [reflexivity|].
  simpl in *. apply not_elem_of_cons in Hn as [Hr Hl].
  destruct (decide (Request.id r = target)); [congruence|].
  rewrite IH by exact Hl. reflexivity.
Qed.

Lemma processingCount_one (ids : list jsstring) (target : jsstring)
    (l : list Request.t) :
  NoDup (map Request.id l) → quiet ids l →
  (processingCount ids (updateById target asProcessing l) ≤ 1)%nat.
Proof.
  induction l as [|r l IH]; intros Hnd Hq; [cbv; lia|].
  simpl in Hnd. apply NoDup_cons in Hnd as [Hr Hnd].
  assert (Hql : quiet ids l).
  { intros x Hx. apply Hq. apply list_elem_of_further. exact Hx. }
  unfold updateById. simpl map. fold (updateById target asProcessing l).
  rewrite processingCount_cons.
  destruct (decide (Request.id r = target)) as [He|Hne].
  - subst target. rewrite updateById_absent by exact Hr.
    rewrite (processingCount_quiet ids l Hql).
    destruct (decide _); simpl; lia.
  - destruct (decide (Request.status r = Processing ∧ Request.id r ∈ ids))
      as [[H1 H2]|_].
    + exfalso. apply (Hq r); [apply list_elem_of_here | exact H2 | exact H1].
    + apply IH; assumption.
Qed.

Lemma quiet_updateById (ids : list jsstring) (target : jsstring)
    (f : Request.t → Request.t) (l : list Request.t) :
  (∀ x, Request.status (f x) ≠ Processing) → quiet ids l →
  quiet ids (updateById target f l).
Proof.
  intros Hf Hq r Hr Hid. unfold updateById in Hr.
  apply list_elem_of_fmap in Hr as (x & -> & Hx).
  destruct (decide (Request.id x = target)); [apply Hf|].
  apply Hq; assumption.
Qed.

(** One request: the events it adds, and the requests they leave. *)
Lemma processRequest_log (fuel : nat) (gq0 : list QuestionData)
    (r : Request.t) (s : AppState) :
  (MAX_OVERALL_REQUEST_ATTEMPTS < fuel)%nat →
  ∃ v s' log f,
    processRequest generate fuel gq0 r s = Some (v, s')
    ∧ history s' = history s ++ log
    ∧ requestLog (Request.id r) (map fst log)
    ∧ (∀ e snap, (e, snap) ∈ log →
         snap = updateById (Request.id r) asProcessing (requests s)
         ∨ snap = requests s')
    ∧ requests s' = updateById (Request.id r) f (requests s)
    ∧ (∀ x, Request.status (f x) ≠ Processing)
    ∧ (∀ x, Request.id (f x) = Request.id x).
Proof.
  intros Hfuel. rewrite (processRequest_runs _ _ _ _ Hfuel). cbv zeta.
  destruct (generate (generateCalls s) r _ None) as [e1|[qs n]].
  - simpl.
    destruct (generate (S (generateCalls s)) r _ (Some (lastErrorOf e1)))
      as [e2|[qs n]].
    + eexists _, _, _, (asError (lastErrorOf e2) _).
      split; [reflexivity|]. simpl. rewrite <- !app_assoc. simpl.
      split; [reflexivity|]. split.
      { right. right. eexists _, _. reflexivity. }
      split.
      { intros ev snap H.
        repeat (apply elem_of_cons in H as [H|H];
                [inversion H; subst; tauto|]).
        inversion H. }
      split; [apply error_after_processing|].
      split; [discriminate | reflexivity].
    + eexists _, _, _, (asCompleted n (length qs)).
      split; [reflexivity|]. simpl. rewrite <- !app_assoc. simpl.
      split; [reflexivity|]. split.
      { right. left. eexists. reflexivity. }
      split.
      { intros ev snap H.
        repeat (apply elem_of_cons in H as [H|H];
                [inversion H; subst; tauto|]).
        inversion H. }
      split; [apply completed_after_processing|].
      split; [discriminate | reflexivity].
  - eexists _, _, _, (asCompleted n (length qs)).
    split; [reflexivity|]. simpl. rewrite <- !app_assoc. simpl.
    split; [reflexivity|]. split.
    { left. reflexivity. }
    split.
    { intros ev snap H.
      repeat (apply elem_of_cons in H as [H|H];
              [inversion H; subst; tauto|]).
      inversion H. }
    split; [apply completed_after_processing|].
    split; [discriminate | reflexivity].
Qed.

Lemma processAll_log (fuel : nat) (gq0 : list QuestionData)
    (ids : list jsstring) (pending : list Request.t) :
  (MAX_OVERALL_REQUEST_ATTEMPTS < fuel)%nat →
  ∀ s,
  ∃ s' logs,
    processAll generate fuel gq0 pending s = Some s'
    ∧ history s' = history s ++ concat logs
    ∧ Forall2 (fun r log => requestLog (Request.id r) (map fst log)) pending logs
    ∧ (NoDup (map Request.id (requests s)) → quiet ids (requests s) →
       ∀ e snap, (e, snap) ∈ concat logs → (processingCount ids snap ≤ 1)%nat).
Proof.
  intros Hfuel. induction pending as [|r pending IH]; intros s.
  - exists s, []. simpl. rewrite app_nil_r.
    split; [reflexivity|]. split; [reflexivity|]. split; [constructor|].
    intros _ _ ev snap H. inversion H.
  - destruct (processRequest_log fuel gq0 r s Hfuel)
      as (v & s1 & log & f & Hrun & Hhist & Hlog & Hsnap & Hreq & Hf1 & Hf2).
    destruct (IH s1) as (s' & logs & Hall & Hhist' & Hlogs & Hsnaps).
    exists s', (log :: logs). simpl. rewrite Hrun.
    split; [exact Hall|]. split; [rewrite Hhist', Hhist, app_assoc; reflexivity|].
    split; [constructor; assumption|].
    intros Hnd Hq.
    assert (Hq1 : quiet ids (requests s1)).
    { rewrite Hreq. apply quiet_updateById; assumption. }
    assert (Hnd1 : NoDup (map Request.id (requests s1))).
    { rewrite Hreq, updateById_ids by exact Hf2. exact Hnd. }
    intros e snap H. apply elem_of_app in H as [H|H];
      [|eapply (Hsnaps Hnd1 Hq1); exact H].
    apply Hsnap in H as [->| ->].
    + apply processingCount_one; assumption.
    + rewrite processingCount_quiet by exact Hq1. lia.
Qed.

Lemma NoDup_map_inj (l : list Request.t) (x y : Request.t) :
  NoDup (map Request.id l) → x ∈ l → y ∈ l → Request.id x = Request.id y →
  x = y.
Proof.
  induction l as [|r l IH]; intros Hnd Hx Hy He; [inversion Hx|].
  simpl in Hnd. apply NoDup_cons in Hnd as [Hr Hnd].
  apply elem_of_cons in Hx as [->|Hx]; apply elem_of_cons in Hy as [->|Hy].
  - reflexivity.
  - exfalso. apply Hr. rewrite He. apply list_elem_of_fmap. eauto.
  - exfalso. apply Hr. rewrite <- He. apply list_elem_of_fmap. eauto.
  - apply IH; assumption.
Qed.

(** C6. [processQueue] handles the pending-or-error requests one at a time
    in queue order: the events of the run are the events of the first
    selected request, then those of the second, and so on, and the events of
    a request begin with its being set to [Processing] and end with its
    being set to [Completed] or [Error], so no generation for a later
    request begins before the earlier one has its final status. When the
    request ids are distinct, after every event at most one of the selected
    requests is [Processing]. *)
Theorem processQueue_one_at_a_time (fuel : nat) (c : N) (key : jsstring)
    (s : AppState) :
  (MAX_OVERALL_REQUEST_ATTEMPTS < fuel)%nat →
  let pendingOrErrorRequests := List.filter selected (requests s) in
  ∃ s' logs,
    processQueue generate fuel (Some (c :: key)) s = Some s'
    ∧ history s' = history s ++ concat logs
    ∧ Forall2 (fun r log => requestLog (Request.id r) (map fst log))
              pendingOrErrorRequests logs
    ∧ (NoDup (map Request.id (requests s)) →
       ∀ e snapshot, (e, snapshot) ∈ concat logs →
         (processingCount (map Request.id pendingOrErrorRequests) snapshot
          ≤ 1)%nat).
Proof.
  intros Hfuel pending. unfold processQueue. fold pending.
  set (s1 := setIsProcessing true (setGlobalError None s)).
  destruct (processAll_log fuel (generatedQuestions s)
              (map Request.id pending) pending Hfuel s1)
    as (s' & logs & Hall & Hhist & Hlogs & Hsnaps).
  rewrite Hall. exists (setIsProcessing false s'), logs.
  split; [reflexivity|]. split; [exact Hhist|]. split; [exact Hlogs|].
  intros Hnd. apply Hsnaps; [exact Hnd|].
  intros r Hr Hid. simpl in Hr.
  apply list_elem_of_fmap in Hid as (p & Hp1 & Hp2).
  apply list_elem_of_In in Hp2. apply filter_In in Hp2 as [Hp2 Hsel].
  apply list_elem_of_In in Hp2.
  assert (r = p) by (eapply NoDup_map_inj; eassumption). subst p.
  unfold selected in Hsel. destruct (Request.status r); discriminate.
Qed.

End QueueFacts.

Lemma processRequest_bounded_attempts_witness :
  (MAX_OVERALL_REQUEST_ATTEMPTS < 3)%nat
  ∧ ∃ v s',
      Queue.processRequest Samples.flakyGenerate 3 []
        (Samples.request "req-1" "ten questions on cells" Pending)
        Samples.queue = Some (v, s')
      ∧ Queue.overallAttempt v = 2%nat
      ∧ Queue.successInRequest v = true
      ∧ map Request.status (Queue.requests s') = [Completed; Completed; Error].
Proof.
  assert (H : (MAX_OVERALL_REQUEST_ATTEMPTS < 3)%nat)
    by (unfold MAX_OVERALL_REQUEST_ATTEMPTS; lia).
  split; [exact H|].
  destruct (processRequest_bounded_attempts Samples.flakyGenerate 3 []
              (Samples.request "req-1" "ten questions on cells" Pending)
              Samples.queue H)
    as (v & s' & Hrun & _ & _ & Hcase).
  simpl in Hcase. destruct Hcase as (Hn & Hok & Hreq).
  exists v, s'. split; [exact Hrun|]. split; [exact Hn|]. split; [exact Hok|].
  rewrite Hreq. vm_compute. reflexivity.
Defined.

Lemma failed_request_keeps_questions_witness :
  ∃ v s',
    Queue.processRequest Samples.failingGenerate 3 []
      (Samples.request "req-3" "three on enzymes" Error)
      Samples.queue = Some (v, s')
    ∧ Queue.successInRequest v = false
    ∧ Queue.generatedQuestions s' = Queue.generatedQuestions Samples.queue.
Proof.
  assert (H : (MAX_OVERALL_REQUEST_ATTEMPTS < 3)%nat)
    by (unfold MAX_OVERALL_REQUEST_ATTEMPTS; lia).
  destruct (failed_request_keeps_questions Samples.failingGenerate 3 []
              (Samples.request "req-3" "three on enzymes" Error)
              Samples.queue (newError (js "quota exceeded"))
              (newError (js "quota exceeded")) H eq_refl eq_refl)
    as [(v & s' & Hrun & Hfail & Hsame & _) _].
  exists v, s'. split; [exact Hrun|]. split; [exact Hfail | exact Hsame].
Defined.

Lemma processQueue_one_at_a_time_witness :
  ∃ s' logs,
    Queue.processQueue Samples.flakyGenerate 3 (Some (js "key")) Samples.queue
    = Some s'
    ∧ Queue.history s' = concat logs
    ∧ length logs = 2%nat
    ∧ ∀ e snapshot, (e, snapshot) ∈ Queue.history s' →
        (QueueSpec.processingCount [js "req-1"; js "req-3"] snapshot ≤ 1)%nat.
Proof.
  assert (H : (MAX_OVERALL_REQUEST_ATTEMPTS < 3)%nat)
    by (unfold MAX_OVERALL_REQUEST_ATTEMPTS; lia).
  assert (Hnd : NoDup (map Request.id (Queue.requests Samples.queue))).
  { apply NoDup_ListNoDup. vm_compute.
    repeat (constructor; [simpl; intuition discriminate|]). constructor. }
  destruct (processQueue_one_at_a_time Samples.flakyGenerate 3 107 (js "ey")
              Samples.queue H)
    as (s' & logs & Hrun & Hhist & Hlogs & Hsnaps).
  exists s', logs. split; [exact Hrun|]. split; [exact Hhist|]. split.
  - apply Forall2_length in Hlogs. rewrite <- Hlogs. reflexivity.
  - intros e snapshot Hin. apply (Hsnaps Hnd e snapshot).
    rewrite Hhist in Hin. exact Hin.
Defined.

Example processQueue_sample_events :
  option_map QueueSpec.events
    (Queue.processQueue Samples.flakyGenerate 3 (Some (js "key")) Samples.queue)
  = Some [ Queue.StatusSet (js "req-1") Processing;
           Queue.GenerationBegins (js "req-1") 0;
           Queue.GenerationThrew (js "req-1") (js "network down");
           Queue.GenerationBegins (js "req-1") 1;
           Queue.QuestionsMerged (js "req-1");
           Queue.StatusSet (js "req-1") Completed;
           Queue.StatusSet (js "req-3") Processing;
           Queue.GenerationBegins (js "req-3") 0;
           Queue.QuestionsMerged (js "req-3");
           Queue.StatusSet (js "req-3") Completed ].
Proof. vm_compute. reflexivity. Qed.

Example mergeQuestions_sample :
  map id (mergeQuestions
            [Samples.plain "q-1" "What is a cell?" "A unit of life";
             Samples.plain "q-2" "What is RNA?" "A nucleic acid"]
            [Samples.plain "gen-1" "What is DNA?" "A nucleic acid";
             Samples.plain "q-1" "What is a cell?" "The unit of life";
             Samples.plain "gen-1" "What is DNA, again?" "A nucleic acid"])
  = [js "q-1"; js "q-2"; js "gen-1"]
  ∧ map Opción_correcta_1
      (mergeQuestions
         [Samples.plain "q-1" "What is a cell?" "A unit of life"]
         [Samples.plain "q-1" "What is a cell?" "The unit of life"])
    = [js "The unit of life"].
Proof. vm_compute. split; reflexivity. Qed.

(** ** The live preview *)

Section PreviewFacts.

Import Preview PreviewSpec.

Lemma receiveChunk_invariant (st : UiState * jsstring) (c : option jsstring) :
  currentRawStreamRef st.1 = st.2 ∧ geminiLiveThought st.1 = st.2 →
  (currentRawStreamRef (receiveChunk st c).1 = (receiveChunk st c).2
   ∧ geminiLiveThought (receiveChunk st c).1 = (receiveChunk st c).2)
  ∧ (receiveChunk st c).2 = st.2 ++ chunkTexts [c].
Proof.
  intros [Hinv Hlive]. destruct st as [u a]. simpl in *.
  destruct c as [[|x t]|]; simpl; rewrite ?app_nil_r; auto.
  rewrite Hinv. auto.
Qed.

Lemma fold_receiveChunk (chunks : list (option jsstring))
    (st : UiState * jsstring) :
  currentRawStreamRef st.1 = st.2 ∧ geminiLiveThought st.1 = st.2 →
  (currentRawStreamRef (fold_left receiveChunk chunks st).1
   = (fold_left receiveChunk chunks st).2
   ∧ geminiLiveThought (fold_left receiveChunk chunks st).1
     = (fold_left receiveChunk chunks st).2)
  ∧ (fold_left receiveChunk chunks st).2 = st.2 ++ chunkTexts chunks.
Proof.
  revert st. induction chunks as [|c chunks IH]; intros st Hinv.
  - simpl. rewrite app_nil_r. auto.
  - simpl fold_left.
    destruct (receiveChunk_invariant st c Hinv) as [H1 H2].
    destruct (IH _ H1) as [H3 H4]. split; [exact H3|].
    rewrite H4, H2. unfold chunkTexts. simpl. rewrite app_nil_r, app_assoc.
    reflexivity.
Qed.

Lemma consumeStream_aggregates (chunks : list (option jsstring)) (ui : UiState) :
  (consumeStream chunks ui).2 = chunkTexts chunks
  ∧ currentRawStreamRef (consumeStream chunks ui).1 = chunkTexts chunks
  ∧ geminiLiveThought (consumeStream chunks ui).1 = chunkTexts chunks.
Proof.
  unfold consumeStream.
  destruct (fold_receiveChunk chunks (setLiveStreamContentCallback [] true ui, []))
    as [[H1 H2] H3]; [split; reflexivity|].
  simpl in H3. rewrite H1, H2, H3. auto.
Qed.

Lemma consumeStream_snoc (chunks : list (option jsstring)) (c : option jsstring)
    (ui : UiState) :
  consumeStream (chunks ++ [c]) ui = receiveChunk (consumeStream chunks ui) c.
Proof. unfold consumeStream. rewrite fold_left_app. reflexivity. Qed.

(** *** The occurrence [lastIndexOf] finds *)

Lemma lastIndexOf_from_none (s m : jsstring) (i : nat) (found : option nat) :
  (∀ j, (j ≤ length s)%nat → isPrefixOf m (drop j s) = false) →
  lastIndexOf_from s m i found = found.
Proof.
  revert i found. induction s as [|c r IH]; intros i found Hno.
  - simpl. specialize (Hno 0%nat (Nat.le_refl _)). simpl in Hno.
    rewrite Hno. reflexivity.
  - cbn [lastIndexOf_from].
    pose proof (Hno 0%nat (Nat.le_0_l _)) as H0. rewrite drop_0 in H0.
    rewrite H0. apply IH. intros j Hj.
    apply (Hno (S j)). simpl. lia.
Qed.

Lemma lastIndexOf_from_last (s m : jsstring) (i : nat) (found : option nat)
    (j : nat) :
  (j ≤ length s)%nat →
  isPrefixOf m (drop j s) = true →
  (∀ j', (j < j' ≤ length s)%nat → isPrefixOf m (drop j' s) = false) →
  lastIndexOf_from s m i found = Some (i + j)%nat.
Proof.
  revert i found j. induction s as [|c r IH]; intros i found j Hj Hat Hlast.
  - simpl in Hj. assert (j = 0%nat) by lia. subst j. simpl in *.
    rewrite Hat. f_equal. lia.
  - cbn [lastIndexOf_from]. destruct j as [|j].
    + rewrite drop_0 in Hat. rewrite Hat.
      rewrite lastIndexOf_from_none; [f_equal; lia|].
      intros j Hj'. apply (Hlast (S j)). simpl. lia.
    + simpl in Hat. rewrite (IH (S i) _ j); [f_equal; lia | simpl in Hj; lia | exact Hat |].
      intros j' Hj'. apply (Hlast (S j')). simpl. lia.
Qed.

Lemma isPrefixOf_app (m x : jsstring) : isPrefixOf m (m ++ x) = true.
Proof.
  induction m as [|c m IH]; simpl; [destruct x; reflexivity|].
  rewrite N.eqb_refl. exact IH.
Qed.

(** *** The two loops *)

Lemma findValueStart_reads (l : jsstring) (i : nat) (rd : list nat) :
  ∃ k, (k ≤ length l)%nat
       ∧ (findValueStart l i rd).2 = rd ++ seq i k
       ∧ ∀ v, (findValueStart l i rd).1 = Some v → v = (i + k)%nat.
Proof.
  revert i rd. induction l as [|c r IH]; intros i rd.
  - exists 0%nat. simpl. rewrite app_nil_r. repeat split; [lia | discriminate].
  - cbn [findValueStart]. destruct (c =? DQUOTE).
    + exists 1%nat. simpl. repeat split; [lia|]. intros v [= <-]. lia.
    + destruct (negb (c =? COLON) && negb (c =? SPACE)
                && negb (c =? NEWLINE) && negb (c =? TAB)).
      * exists 1%nat. simpl. repeat split; [lia | discriminate].
      * destruct (IH (S i) (rd ++ [i])) as (k & Hk & Hr & Hv).
        exists (S k). simpl. split; [lia|]. split.
        -- rewrite Hr, <- app_assoc. reflexivity.
        -- intros v Hs. rewrite (Hv v Hs). lia.
Qed.

Lemma scanValue_reads (l : jsstring) (i : nat) (buf : jsstring) (esc : bool)
    (rd : list nat) :
  ∃ k, (k ≤ length l)%nat ∧ (scanValue l i buf esc rd).2 = rd ++ seq i k.
Proof.
  revert i buf esc rd. induction l as [|c r IH]; intros i buf esc rd.
  - exists 0%nat. simpl. rewrite app_nil_r. split; [lia | reflexivity].
  - cbn [scanValue].
    assert (Hstep : ∀ b e, ∃ k, (k ≤ length (c :: r))%nat
              ∧ (scanValue r (S i) b e (rd ++ [i])).2 = rd ++ seq i k).
    { intros b e. destruct (IH (S i) b e (rd ++ [i])) as (k & Hk & Hr).
      exists (S k). simpl. split; [lia|]. rewrite Hr, <- app_assoc. reflexivity. }
    destruct esc; [apply Hstep|].
    destruct (c =? BACKSLASH); [apply Hstep|].
    destruct (c =? DQUOTE); [|apply Hstep].
    exists 1%nat. simpl. split; [lia | reflexivity].
Qed.

Lemma reads_range (streamSoFar : jsstring) :
  ∃ start count,
    reads streamSoFar = seq start count
    ∧ (count = 0 ∨ start + count ≤ length streamSoFar)%nat.
Proof.
  unfold reads, scanLatestPregunta.
  destruct (lastIndexOf streamSoFar keyMarker) as [k|];
    [|exists 0%nat, 0%nat; simpl; auto].
  set (from := (k + length keyMarker)%nat).
  destruct (findValueStart_reads (drop from streamSoFar) from [])
    as (k1 & Hk1 & Hr1 & Hv1).
  rewrite length_drop in Hk1.
  destruct (findValueStart (drop from streamSoFar) from []) as [[v|] rd1].
  - simpl in Hr1, Hv1. specialize (Hv1 v eq_refl). subst v rd1.
    destruct (scanValue_reads (drop (from + k1) streamSoFar) (from + k1)
                [] false (seq from k1)) as (k2 & Hk2 & Hr2).
    rewrite length_drop in Hk2.
    destruct (scanValue (drop (from + k1) streamSoFar) (from + k1) [] false
                (seq from k1)) as [[latest buf] rd2].
    simpl in Hr2. subst rd2. simpl.
    exists from, (k1 + k2)%nat. rewrite seq_app. split; [reflexivity|]. lia.
  - simpl in Hr1. subst rd1. simpl. exists from, k1. split; [reflexivity|]. lia.
Qed.

Lemma findValueStart_separators (sep rest : jsstring) (i : nat) (rd : list nat) :
  forallb isSeparator sep = true →
  (findValueStart (sep ++ DQUOTE :: rest) i rd).1 = Some (i + length sep + 1)%nat.
Proof.
  revert i rd. induction sep as [|c sep IH]; intros i rd Hsep.
  - simpl. f_equal. lia.
  - simpl in Hsep. apply andb_true_iff in Hsep as [Hc Hsep].
    cbn [findValueStart app]. unfold isSeparator in Hc.
    destruct (N.eqb_spec c DQUOTE) as [->|_]; [discriminate|].
    destruct (c =? COLON), (c =? SPACE), (c =? NEWLINE), (c =? TAB);
      try discriminate; simpl; rewrite IH by exact Hsep; f_equal; simpl; lia.
Qed.

Lemma scanValue_body (body rest : jsstring) (i : nat) (buf : jsstring)
    (esc e : bool) (rd : list nat) :
  rawBody body esc = Some e →
  (rest = [] ∧
   (scanValue (body ++ rest) i buf esc rd).1 = ([], buf ++ body))
  ∨ (rest ≠ [] ∧
     (scanValue (body ++ rest) i buf esc rd).1
     = (scanValue rest (i + length body) (buf ++ body) e
                  (rd ++ seq i (length body))).1).
Proof.
  revert i buf esc rd. induction body as [|c body IH]; intros i buf esc rd Hraw.
  - simpl in Hraw. injection Hraw as <-. simpl. rewrite !app_nil_r, Nat.add_0_r.
    destruct rest as [|x rest]; [left; auto | right; split; [discriminate|reflexivity]].
  - cbn [rawBody] in Hraw. cbn [scanValue app].
    assert (Hgo : ∀ e', rawBody body e' = Some e →
      (rest = [] ∧
       (scanValue (body ++ rest) (S i) (buf ++ [c]) e' (rd ++ [i])).1
       = ([], buf ++ c :: body))
      ∨ (rest ≠ [] ∧
         (scanValue (body ++ rest) (S i) (buf ++ [c]) e' (rd ++ [i])).1
         = (scanValue rest (i + length (c :: body)) (buf ++ c :: body) e
                      (rd ++ seq i (length (c :: body)))).1)).
    { intros e' He'. destruct (IH (S i) (buf ++ [c]) e' (rd ++ [i]) He')
        as [[H1 H2]|[H1 H2]]; [left|right]; split; try assumption.
      - rewrite H2, <- app_assoc. reflexivity.
      - rewrite H2, <- !app_assoc. simpl. rewrite Nat.add_succ_r.
        reflexivity. }
    destruct esc; [apply Hgo; exact Hraw|].
    destruct (c =? BACKSLASH); [apply Hgo; exact Hraw|].
    destruct (c =? DQUOTE); [discriminate|].
    apply Hgo; exact Hraw.
Qed.

(** What the scanning pass extracts: the text between the opening quote
    that follows the last occurrence of the key and the next unescaped
    quote, or the end of the text when that quote has not arrived. *)
Lemma latestPreguntaContent_raw (pre sep body rest : jsstring) (e : bool) :
  let text := pre ++ keyMarker ++ sep ++ DQUOTE :: body ++ rest in
  (∀ j, (length pre < j ≤ length text)%nat →
        isPrefixOf keyMarker (drop j text) = false) →
  forallb isSeparator sep = true →
  rawBody body false = Some e →
  rest = [] ∨ (e = false ∧ JS.startsWith rest DQUOTE = true) →
  latestPreguntaContent text = body.
Proof.
  intros text Hlast Hsep Hraw Hrest.
  unfold latestPreguntaContent, scanLatestPregunta.
  assert (Hidx : lastIndexOf text keyMarker = Some (length pre)).
  { unfold lastIndexOf.
    rewrite (lastIndexOf_from_last text keyMarker 0 None (length pre)).
    - reflexivity.
    - unfold text. rewrite length_app. lia.
    - unfold text. rewrite drop_app_length. apply isPrefixOf_app.
    - exact Hlast. }
  rewrite Hidx.
  assert (Hdrop : drop (length pre + length keyMarker) text
                  = sep ++ DQUOTE :: body ++ rest).
  { unfold text. rewrite app_assoc. apply drop_app_length'.
    rewrite length_app. reflexivity. }
  rewrite Hdrop.
  pose proof (findValueStart_separators sep (body ++ rest)
                (length pre + length keyMarker) [] Hsep) as Hv.
  destruct (findValueStart (sep ++ DQUOTE :: body ++ rest)
              (length pre + length keyMarker) []) as [v rd].
  cbn [fst] in Hv. subst v.
  assert (Hdrop2 : drop (length pre + length keyMarker + length sep + 1) text
                   = body ++ rest).
  { assert (Ht : text = (pre ++ keyMarker ++ sep ++ [DQUOTE]) ++ body ++ rest).
    { unfold text. rewrite <- !app_assoc. reflexivity. }
    rewrite Ht. apply drop_app_length'. rewrite !length_app. simpl. lia. }
  rewrite Hdrop2.
  destruct (scanValue_body body rest
              (length pre + length keyMarker + length sep + 1) [] false e rd Hraw)
    as [[Hr Hs]|[Hr Hs]].
  - destruct (scanValue (body ++ rest) _ [] false rd) as [[latest buf] rd'].
    simpl in Hs. injection Hs as -> ->. simpl.
    destruct body; reflexivity.
  - destruct Hrest as [->|[-> Hq]]; [congruence|].
    destruct rest as [|x rest]; [congruence|]. simpl in Hq.
    apply N.eqb_eq in Hq. subst x.
    destruct (scanValue (body ++ DQUOTE :: rest) _ [] false rd)
      as [[latest buf] rd'].
    simpl in Hs. injection Hs as -> ->. simpl.
    destruct body; reflexivity.
Qed.

Lemma displayContent_short (latest : jsstring) :
  (length latest ≤ 70)%nat → displayContent latest = latest.
Proof.
  intros H. unfold displayContent.
  destruct (Nat.ltb_spec 70 (length latest)); [lia | reflexivity].
Qed.

Lemma displayContent_long (latest : jsstring) :
  (70 < length latest)%nat →
  displayContent latest = take 67 latest ++ js "..."
  ∧ length (displayContent latest) = 70%nat.
Proof.
  intros H. unfold displayContent.
  destruct (Nat.ltb_spec 70 (length latest)); [|lia].
  assert (Hs : JS.substring 0 67 latest = take 67 latest).
  { unfold JS.substring. rewrite Nat.min_0_l.
    replace (Nat.min (Nat.min 67 (length latest)) 0)%nat with 0%nat by lia.
    rewrite Nat.min_0_l, Nat.max_0_l, drop_0, Nat.sub_0_r.
    rewrite Nat.min_l by lia. reflexivity. }
  rewrite Hs. split; [reflexivity|].
  rewrite length_app, length_take.
  change (length (js "...")) with 3%nat. lia.
Qed.

(** C3, as the code has it. For every sequence of chunks, after each chunk
    the aggregated text (and the ref the preview reads) is the concatenation
    of the chunks so far. A chunk with text updates the preview from
    [latestPreguntaContent] of that text: when it is empty the preview stays
    as it was; otherwise the preview shows it, whole when it has at most 70
    characters, else its first 67 characters followed by three dots. That
    content is the raw text, escape sequences left as they are, between the
    opening quote after the last occurrence of the key and the next
    unescaped quote, or the end of the text received so far. *)
Theorem stream_preview (chunks : list (option jsstring)) (ui : UiState) :
  (∀ n, (consumeStream (take n chunks) ui).2 = chunkTexts (take n chunks)
        ∧ currentRawStreamRef (consumeStream (take n chunks) ui).1
          = chunkTexts (take n chunks))
  ∧ (∀ n c, chunks !! n = Some c →
       let before := consumeStream (take n chunks) ui in
       let after := consumeStream (take (S n) chunks) ui in
       match c with
       | Some (x :: t) =>
           let latest := latestPreguntaContent (chunkTexts (take (S n) chunks)) in
           currentAnimatedPreviewText after.1
           = if isEmpty latest then currentAnimatedPreviewText before.1
             else Some (previewMarkup (displayContent latest))
       | _ => after = before
       end)
  ∧ (∀ latest,
       ((length latest ≤ 70)%nat → displayContent latest = latest)
       ∧ ((70 < length latest)%nat →
          displayContent latest = take 67 latest ++ js "..."))
  ∧ (∀ pre sep body rest e,
       let text := pre ++ keyMarker ++ sep ++ DQUOTE :: body ++ rest in
       (∀ j, (length pre < j ≤ length text)%nat →
             isPrefixOf keyMarker (drop j text) = false) →
       forallb isSeparator sep = true →
       rawBody body false = Some e →
       rest = [] ∨ (e = false ∧ JS.startsWith rest DQUOTE = true) →
       latestPreguntaContent text = body).
Proof.
  split; [|split; [|split]].
  - intros n. destruct (consumeStream_aggregates (take n chunks) ui) as (H1 & H2 & _).
    auto.
  - intros n c Hc. cbv zeta. rewrite (take_S_r _ _ _ Hc), consumeStream_snoc.
    destruct (consumeStream_aggregates (take n chunks) ui) as (H1 & H2 & _).
    destruct (consumeStream (take n chunks) ui) as [u a]. simpl in *.
    destruct c as [[|x t]|]; try reflexivity.
    simpl. rewrite H2. unfold chunkTexts. rewrite flat_map_app. simpl.
    rewrite app_nil_r. reflexivity.
  - intros latest. split; [apply displayContent_short|].
    intros H. apply displayContent_long. exact H.
  - intros pre sep body rest e. apply latestPreguntaContent_raw.
Qed.

End PreviewFacts.

Section PreviewCounterexample.

Import Preview PreviewSpec.

(** C3 as stated fails: on a value with an escaped quote the preview shows
    the raw text, backslashes included, not the string value. *)
Lemma stream_preview_raw_counterexample :
  ¬ PreviewSpec.claimed [Samples.escapedChunk] PreviewSpec.emptyUi.
Proof.
  intros H. pose proof (H 1%nat) as H1.
  change (take 1 [Samples.escapedChunk]) with [Samples.escapedChunk] in H1.
  remember (consumeStream [Samples.escapedChunk] emptyUi) as r eqn:Er.
  vm_compute in Er. subst r. cbv iota beta in H1.
  destruct H1 as [_ H1]. specialize (H1 (jsq "Say 'hi'")).
  assert (Hv : latestPreguntaValue
                 (jsq "[{'Pregunta':'Say \'hi\'','Opción correcta 1':'ok'}]")
               = Some (jsq "Say 'hi'")) by (vm_compute; reflexivity).
  vm_compute in Hv. vm_compute in H1. specialize (H1 Hv). discriminate H1.
Qed.

Example stream_preview_sample :
  let '(ui, text) := consumeStream [Samples.escapedChunk] emptyUi in
  latestPreguntaValue text = Some (jsq "Say 'hi'")
  ∧ currentAnimatedPreviewText ui
    = Some (previewMarkup (jsq "Say \'hi\'")).
Proof. vm_compute. split; reflexivity. Qed.

End PreviewCounterexample.

(** ** The JSON-correction loop *)

Section ServiceFacts.

Import Service ServiceSpec.

Variable E : Engine.

Lemma iteration_spec (st : LoopState) :
  ∃ a, stepFacts E st a
    ∧ match iteration E st with
      | Continue st' =>
          attempts st' = attempts st ++ [a]
          ∧ jsonCorrectionAttempts st' = S (jsonCorrectionAttempts st)
          ∧ lastGeminiRawOutput st' = examined a
          ∧ verdict a = Rejected (lastJsonErrorForReprompt st')
      | Return r st' =>
          attempts st' = attempts st ++ [a]
          ∧ jsonCorrectionAttempts st' = jsonCorrectionAttempts st
          ∧ verdict a = Accepted (parsedQuestions r)
          ∧ rawText r = examined a
          ∧ resultCorrectionAttempts r = jsonCorrectionAttempts st
      end.
Proof.
  unfold iteration, stepFacts, stepPrompt, correctionPromptFor.
  destruct (0 <? jsonCorrectionAttempts st)%nat.
  - destruct (generateContent E (correctionCalls st) _) as [error|raw].
    + eexists (mkAttempt _ _ _). simpl. repeat split.
    + destruct (isBlank raw) eqn:Hb.
      * eexists (mkAttempt _ _ _). simpl. repeat split.
        exists 0%nat. unfold judge. rewrite Hb. reflexivity.
      * destruct (parseAndValidate E raw (idsGenerated st)) as [[error|qs] tick] eqn:Hp.
        -- eexists (mkAttempt _ _ _). simpl. repeat split.
           exists (idsGenerated st). unfold judge. rewrite Hb, Hp. reflexivity.
        -- eexists (mkAttempt _ _ _). simpl. repeat split.
           exists (idsGenerated st). unfold judge. rewrite Hb, Hp. reflexivity.
  - destruct (isBlank (lastGeminiRawOutput st)) eqn:Hb.
    + eexists (mkAttempt _ _ _). simpl. repeat split.
      exists 0%nat. unfold judge. rewrite Hb. reflexivity.
    + destruct (parseAndValidate E (lastGeminiRawOutput st) (idsGenerated st))
        as [[error|qs] tick] eqn:Hp.
      * eexists (mkAttempt _ _ _). simpl. repeat split.
        exists (idsGenerated st). unfold judge. rewrite Hb, Hp. reflexivity.
      * eexists (mkAttempt _ _ _). simpl. repeat split.
        exists (idsGenerated st). unfold judge. rewrite Hb, Hp. reflexivity.
Qed.


(** Every iteration either returns or adds one to the counter, the
    iteration with an empty answer included. *)
Lemma iteration_counter (st : LoopState) :
  match iteration E st with
  | Continue st' => jsonCorrectionAttempts st' = S (jsonCorrectionAttempts st)
  | Return _ _ => True
  end.
Proof.
  destruct (iteration_spec st) as (a & _ & H).
  destruct (iteration E st); [tauto | exact I].
Qed.




(** *** Parsing and validation *)

Lemma nonBlankString_some (v : option JSON) (s : jsstring) :
  nonBlankString v = Some s → isBlank s = false ∧ s ≠ [].
Proof.
  unfold nonBlankString. destruct v as [[| | |x| |]|]; try discriminate.
  destruct (isBlank x) eqn:Hb; [discriminate|]. intros [= <-].
  split; [exact Hb|]. intros ->. vm_compute in Hb. discriminate.
Qed.

Lemma parseItem_valid (i : nat) (item : JSON) (tick : nat) :
  validItem item = true →
  ∃ q tick', parseItem E i item tick = inr (q, tick')
             ∧ fromItem E item q ∧ wellFormedQuestion q.
Proof.
  unfold validItem, parseItem. intros Hv.
  destruct item as [| | | |items|members];
    try (simpl in Hv; discriminate).
  destruct (nonBlankString (getProperty (JObject members) (js "Pregunta")))
    as [p|] eqn:Hp; [|discriminate].
  destruct (nonBlankString (getProperty (JObject members) (js "Opción correcta 1")))
    as [c|] eqn:Hc; [|discriminate].
  destruct (nonBlankString_some _ _ Hp) as [Hp1 _].
  destruct (nonBlankString_some _ _ Hc) as [Hc1 _].
  destruct (nonBlankString (getProperty (JObject members) (js "id")))
    as [supplied|] eqn:Hid.
  - eexists _, _. split; [reflexivity|]. split.
    + unfold fromItem. rewrite Hp, Hc, Hid. simpl. repeat split.
    + unfold wellFormedQuestion. simpl. repeat split; try assumption.
      * eexists. reflexivity.
      * apply (nonBlankString_some _ _ Hid).
  - eexists _, _. split; [reflexivity|]. split.
    + unfold fromItem. rewrite Hp, Hc, Hid. simpl. repeat split.
      exists tick. reflexivity.
    + unfold wellFormedQuestion. simpl. repeat split; try assumption.
      * eexists. reflexivity.
      * discriminate.
Qed.

Lemma parseItem_invalid (i : nat) (item : JSON) (tick : nat) :
  validItem item = false → ∃ e, parseItem E i item tick = inl e.
Proof.
  unfold validItem, parseItem. intros Hv.
  destruct item as [| | | |items|members]; try (eexists; reflexivity).
  destruct (nonBlankString (getProperty (JObject members) (js "Pregunta")))
    as [p|]; [|eexists; reflexivity].
  destruct (nonBlankString (getProperty (JObject members) (js "Opción correcta 1")))
    as [c|]; [discriminate | eexists; reflexivity].
Qed.

Lemma parseItems_valid (items : list JSON) :
  forallb validItem items = true →
  ∀ i tick acc,
    ∃ qs tick', parseItems E items i tick acc = (inr (acc ++ qs), tick')
                ∧ Forall2 (fromItem E) items qs
                ∧ Forall wellFormedQuestion qs.
Proof.
  induction items as [|item items IH]; intros Hall i tick acc.
  - exists [], tick. simpl. rewrite app_nil_r. repeat split; constructor.
  - simpl in Hall. apply andb_true_iff in Hall as [Hv Hall].
    destruct (parseItem_valid i item tick Hv) as (q & tick1 & Hq & Hfrom & Hwf).
    destruct (IH Hall (S i) tick1 (acc ++ [q])) as (qs & tick' & Hqs & Hf2 & Hwfs).
    exists (q :: qs), tick'. cbn [parseItems]. rewrite Hq, Hqs, <- app_assoc.
    repeat split; constructor; assumption.
Qed.

Lemma parseItems_invalid (items : list JSON) :
  forallb validItem items = false →
  ∀ i tick acc, ∃ e tick', parseItems E items i tick acc = (inl e, tick').
Proof.
  induction items as [|item items IH]; intros Hall i tick acc; [discriminate|].
  simpl in Hall. cbn [parseItems].
  destruct (validItem item) eqn:Hv.
  - destruct (parseItem_valid i item tick Hv) as (q & tick1 & Hq & _).
    rewrite Hq. apply IH. exact Hall.
  - destruct (parseItem_invalid i item tick Hv) as (e & He).
    rewrite He. eauto.
Qed.

Lemma parseAndValidate_cases (raw : jsstring) (tick : nat) :
  match JSON_parse E (jsonText raw) with
  | inr (JArray items) =>
      if forallb validItem items then
        if match items with [] => true | _ => false end
           && negb (plainEmptyArray raw) then
          ∃ e tick', parseAndValidate E raw tick = (inl e, tick')
        else
          ∃ qs tick', parseAndValidate E raw tick = (inr qs, tick')
                      ∧ Forall2 (fromItem E) items qs
                      ∧ Forall wellFormedQuestion qs
      else ∃ e tick', parseAndValidate E raw tick = (inl e, tick')
  | _ => ∃ e tick', parseAndValidate E raw tick = (inl e, tick')
  end.
Proof.
  unfold parseAndValidate, plainEmptyArray, jsonText.
  destruct (JSON_parse E (stripFence (JS.trim raw))) as [msg|v];
    [eexists _, _; reflexivity|].
  destruct v as [| | | |items|]; try (eexists _, _; reflexivity).
  destruct (forallb validItem items) eqn:Hall.
  - destruct (parseItems_valid items Hall 0%nat tick [])
      as (qs & tick' & Hrun & Hf2 & Hwf).
    rewrite Hrun. simpl app.
    pose proof (Forall2_length _ _ _ Hf2) as Hlen.
    destruct items as [|item items].
    + destruct qs; [|discriminate]. simpl.
      destruct (Preview.isEmpty (JS.trim (stripFence (JS.trim raw)))); simpl.
      * eexists _, _. repeat split; constructor.
      * destruct (bool_decide _); simpl.
        -- eexists _, _. repeat split; constructor.
        -- eexists _, _. reflexivity.
    + destruct qs as [|q qs]; [discriminate|]. simpl.
      eexists _, _. repeat split; assumption.
  - destruct (parseItems_invalid items Hall 0%nat tick []) as (e & tick' & Hrun).
    rewrite Hrun. eauto.
Qed.






Lemma whileLoop_total (requestPrompt : jsstring) (fuel : nat) :
  ∀ st,
    (MAX_JSON_CORRECTION_ATTEMPTS - jsonCorrectionAttempts st < fuel)%nat →
    ∃ c st' new,
      whileLoop E fuel requestPrompt st = Some (c, st')
      ∧ attempts st' = attempts st ++ new
      ∧ (length new ≤ MAX_JSON_CORRECTION_ATTEMPTS - jsonCorrectionAttempts st)%nat.
Proof.
  induction fuel as [|fuel IH]; intros st Hfuel; [lia|].
  cbn [whileLoop].
  destruct (Nat.ltb_spec (jsonCorrectionAttempts st) MAX_JSON_CORRECTION_ATTEMPTS)
    as [Hlt|Hge].
  - destruct (iteration_spec st) as (a & _ & Hit).
    destruct (iteration E st) as [st1|r st1].
    + destruct Hit as (Hatt & Hc1 & _).
      destruct (IH st1) as (c & st' & new & Hrun & Hatt' & Hlen); [lia|].
      exists c, st', (a :: new). split; [exact Hrun|].
      split; [rewrite Hatt', Hatt, <- app_assoc; reflexivity|].
      simpl. lia.
    + destruct Hit as (Hatt & _).
      exists (Returned r), st1, [a]. split; [reflexivity|].
      split; [exact Hatt | simpl; lia].
  - exists (Threw (finalError requestPrompt st)), st, [].
    split; [reflexivity|]. rewrite app_nil_r. split; [reflexivity | simpl; lia].
Qed.

Lemma iteration_empty_answer (st : LoopState) :
  jsonCorrectionAttempts st = 0%nat →
  isBlank (lastGeminiRawOutput st) = true →
  ∃ st', iteration E st = Continue st'
         ∧ jsonCorrectionAttempts st' = 1%nat
         ∧ lastJsonErrorForReprompt st' = Some emptyResponseMessage.
Proof.
  intros Hc Hb. unfold iteration. rewrite Hc. simpl. rewrite Hb.
  eexists. repeat split.
Qed.

Lemma iteration_returns (st st' : LoopState) (r : GenerationResult) :
  iteration E st = Return r st' →
  ∃ raw, isBlank raw = false
         ∧ parseAndValidate E raw (idsGenerated st)
           = (inr (parsedQuestions r), idsGenerated st').
Proof.
  unfold iteration.
  destruct (if (0 <? jsonCorrectionAttempts st)%nat then _ else None) as [P|].
  - destruct (generateContent E (correctionCalls st) P) as [e|raw]; [discriminate|].
    destruct (isBlank raw) eqn:Hb; [discriminate|].
    destruct (parseAndValidate E raw (idsGenerated st)) as [[e|qs] tick] eqn:Hp;
      [discriminate|].
    intros [= <- <-]. exists raw. split; [exact Hb | exact Hp].
  - destruct (isBlank (lastGeminiRawOutput st)) eqn:Hb; [discriminate|].
    destruct (parseAndValidate E (lastGeminiRawOutput st) (idsGenerated st))
      as [[e|qs] tick] eqn:Hp; [discriminate|].
    intros [= <- <-]. exists (lastGeminiRawOutput st).
    split; [exact Hb | exact Hp].
Qed.

Lemma whileLoop_returns (requestPrompt : jsstring) (fuel : nat) :
  ∀ st st' r,
    whileLoop E fuel requestPrompt st = Some (Returned r, st') →
    ∃ raw tick tick',
      isBlank raw = false
      ∧ parseAndValidate E raw tick = (inr (parsedQuestions r), tick').
Proof.
  induction fuel as [|fuel IH]; intros st st' r Hrun; [discriminate|].
  cbn [whileLoop] in Hrun.
  destruct (jsonCorrectionAttempts st <? MAX_JSON_CORRECTION_ATTEMPTS)%nat;
    [|discriminate].
  destruct (iteration E st) as [st1|r1 st1] eqn:Hit.
  - eapply IH. exact Hrun.
  - injection Hrun as <- <-.
    destruct (iteration_returns _ _ _ Hit) as (raw & Hb & Hp). eauto.
Qed.

Lemma parseAndValidate_returns (raw : jsstring) (tick tick' : nat)
    (qs : list QuestionData) :
  parseAndValidate E raw tick = (inr qs, tick') →
  Forall wellFormedQuestion qs
  ∧ ∃ items, JSON_parse E (jsonText raw) = inr (JArray items)
             ∧ Forall2 (fromItem E) items qs.
Proof.
  intros Hp. pose proof (parseAndValidate_cases raw tick) as Hc.
  destruct (JSON_parse E (jsonText raw)) as [msg|v].
  { destruct Hc as (e & t & He). congruence. }
  destruct v as [| | | |items|];
    try (destruct Hc as (e & t & He); congruence).
  destruct (forallb validItem items).
  - destruct (_ && _).
    + destruct Hc as (e & t & He). congruence.
    + destruct Hc as (qs' & t & He & Hf2 & Hwf).
      rewrite Hp in He. injection He as -> _. eauto.
  - destruct Hc as (e & t & He). congruence.
Qed.



(** C8. Every question in the [parsedQuestions] that a call returns has a
    [Pregunta] and an [Opción correcta 1] that are not blank, an
    [Explicación] that is a string, and a non-empty id; it comes from an
    item of the parsed array, with these two fields as the item has them,
    with the [Explicación] of the item as a string, the empty string for
    null or undefined, and with the id of the item when that is a string
    that is not blank, else with a generated id that starts with gen-. *)
Theorem returned_questions_well_formed (fuel : nat)
    (apiKey requestPrompt : jsstring) (stream : StreamResponse)
    (ui0 : Preview.UiState) (out : Outcome) (r : GenerationResult) :
  generateQuestionsFromGemini E fuel apiKey requestPrompt stream ui0 = Some out →
  completion out = Returned r →
  Forall wellFormedQuestion (parsedQuestions r)
  ∧ ∃ items, Forall2 (fromItem E) items (parsedQuestions r).
Proof.
  unfold generateQuestionsFromGemini.
  destruct (Preview.isEmpty apiKey).
  { intros [= <-]. discriminate. }
  destruct (Preview.consumeStream (chunks stream) ui0) as [ui1 aggregated].
  destruct (failure stream) as [streamError|].
  { intros [= <-]. discriminate. }
  destruct (whileLoop E fuel requestPrompt (initialLoopState aggregated))
    as [[c st]|] eqn:Hrun; [|discriminate].
  intros [= <-]. simpl. intros ->.
  destruct (whileLoop_returns _ _ _ _ _ Hrun) as (raw & tick & tick' & _ & Hp).
  destruct (parseAndValidate_returns _ _ _ _ Hp) as (Hwf & items & _ & Hf2).
  eauto.
Qed.

(** C4. Both loops end. The correction loop, run with enough fuel for its
    remaining iterations, gives a result after at most
    [MAX_JSON_CORRECTION_ATTEMPTS] minus the counter iterations, because
    every iteration that does not return adds one to the counter, the one
    that meets an empty answer included. The scanning pass of the preview
    reads each index of the text at most once, and only indices of the
    text. *)
Theorem loops_terminate (fuel : nat) (requestPrompt : jsstring)
    (st : LoopState) (streamSoFar : jsstring) :
  (MAX_JSON_CORRECTION_ATTEMPTS - jsonCorrectionAttempts st < fuel)%nat →
  (∃ c st' new,
     whileLoop E fuel requestPrompt st = Some (c, st')
     ∧ attempts st' = attempts st ++ new
     ∧ (length new ≤ MAX_JSON_CORRECTION_ATTEMPTS - jsonCorrectionAttempts st)%nat
     ∧ (length new ≤ MAX_JSON_CORRECTION_ATTEMPTS)%nat)
  ∧ (∀ st0, match iteration E st0 with
            | Continue st1 =>
                jsonCorrectionAttempts st1 = S (jsonCorrectionAttempts st0)
            | Return _ _ => True
            end)
  ∧ (∀ st0, jsonCorrectionAttempts st0 = 0%nat →
            isBlank (lastGeminiRawOutput st0) = true →
            ∃ st1, iteration E st0 = Continue st1
                   ∧ jsonCorrectionAttempts st1 = 1%nat
                   ∧ lastJsonErrorForReprompt st1 = Some emptyResponseMessage)
  ∧ NoDup (PreviewSpec.reads streamSoFar)
  ∧ (∀ i, i ∈ PreviewSpec.reads streamSoFar → (i < length streamSoFar)%nat).
Proof.
  intros Hfuel. split; [|split; [|split; [|split]]].
  - destruct (whileLoop_total requestPrompt fuel st Hfuel)
      as (c & st' & new & Hrun & Hatt & Hlen).
    exists c, st', new. repeat split; try assumption. lia.
  - apply iteration_counter.
  - apply iteration_empty_answer.
  - destruct (reads_range streamSoFar) as (start & count & -> & _).
    apply NoDup_seq.
  - destruct (reads_range streamSoFar) as (start & count & -> & Hr).
    intros i Hi. apply elem_of_seq in Hi. lia.
Qed.

End ServiceFacts.

Section ServiceRuns.

Import Service ServiceSpec.



Lemma returned_questions_well_formed_witness :
  ∃ out r,
    generateQuestionsFromGemini Samples.correctingEngine 6 (js "key")
      (js "two questions on cells") (Samples.streamOf Samples.faultyAnswer)
      PreviewSpec.emptyUi = Some out
    ∧ completion out = Returned r
    ∧ Forall wellFormedQuestion (parsedQuestions r).
Proof.
  assert (Hrun : ∃ out,
            generateQuestionsFromGemini Samples.correctingEngine 6 (js "key")
              (js "two questions on cells")
              (Samples.streamOf Samples.faultyAnswer) PreviewSpec.emptyUi
            = Some out)
    by (vm_compute; eexists; reflexivity).
  destruct Hrun as [out Hrun].
  pose proof Hrun as Hout. vm_compute in Hout. injection Hout as Hout.
  destruct (completion out) as [r|e] eqn:Hc; [|subst out; discriminate].
  exists out, r. split; [exact Hrun|]. split; [exact Hc|].
  apply (returned_questions_well_formed Samples.correctingEngine 6 (js "key")
           (js "two questions on cells")
           (Samples.streamOf Samples.faultyAnswer) PreviewSpec.emptyUi
           out r Hrun Hc).
Defined.

Lemma loops_terminate_witness :
  ∃ c st',
    whileLoop Samples.spacedEngine 6 (js "ten questions on cells")
      (initialLoopState Samples.spacedEmptyArray) = Some (c, st')
    ∧ (length (attempts st') ≤ 5)%nat.
Proof.
  assert (H : (MAX_JSON_CORRECTION_ATTEMPTS
               - jsonCorrectionAttempts (initialLoopState Samples.spacedEmptyArray)
               < 6)%nat)
    by (unfold MAX_JSON_CORRECTION_ATTEMPTS; simpl; lia).
  destruct (loops_terminate Samples.spacedEngine 6 (js "ten questions on cells")
              (initialLoopState Samples.spacedEmptyArray) [] H)
    as [(c & st' & new & Hrun & Hatt & _ & Hlen) _].
  exists c, st'. split; [exact Hrun|]. rewrite Hatt. exact Hlen.
Defined.

Example correction_loop_sample_log :
  option_map
    (fun out => option_map (fun st => map correctionPrompt (attempts st)) (loop out))
    (generateQuestionsFromGemini Samples.correctingEngine 6 (js "key")
       (js "two questions on cells") (Samples.streamOf Samples.faultyAnswer)
       PreviewSpec.emptyUi)
  = Some (Some
      [ None;
        Some (constructJsonCorrectionPrompt Samples.faultyAnswer
                (js "Item 0 (What is a cell?...) en el array JSON no tiene los campos requeridos 'Pregunta' y 'Opción correcta 1' como strings no vacíos.")) ]).
Proof. vm_compute. reflexivity. Qed.

Example stripFence_sample :
  stripFence (js "```json
[1, 2]
```") = js "[1, 2]"
  ∧ stripFence (js "```[]```") = js "[]"
  ∧ stripFence (js "``` ```") = js "``` ```"
  ∧ stripFence (js "[]") = js "[]".
Proof. vm_compute. repeat split. Qed.

End ServiceRuns.
